(** * spyce: anomaly conversions and celestial-body queries

  A shallow embedding of [spyce/orbit_angles.py] and of the queries of
  [spyce/body.py], with the properties the specification states about
  them.

  Numbers.  A finite Python float is a rational number.  The model takes
  the arithmetic on finite floats to be exact:
  - in [orbit_angles.py], where values flow through [sin], [acos], [sqrt]
    and the like, finite floats are real numbers ([R]);
  - in [body.py], the durations, periods, radius and gravitational
    parameter are rationals ([Q]), so that formatting and parsing
    compute; they are injected into [R] ([Q2R]) where a trigonometric
    function is applied.
  Rounding, overflow and signed zeros are outside this model.  The two
  special floats the source returns on purpose, [math.inf] and
  [math.nan], are values of [pyfloat].

  Where the rounding of doubles or their exponent range decides whether
  a call returns or raises, the same source lines are run a second time:
  on the doubles themselves in [Binary64], on real numbers with the
  overflow of [math.cosh] and [math.sinh] in [Ranged].  The statements
  made in exact arithmetic keep to the domain where the two agree.

  Exceptions.  An operation that can raise returns a [pyresult].

  Embedded: from [orbit_angles.py], [ejection_angle],
  [mean_anomaly_at_eccentric_anomaly], [eccentric_anomaly_at_mean_anomaly],
  [true_anomaly_at_eccentric_anomaly], [true_anomaly_at_mean_anomaly] and
  [true_anomaly_at_distance]; from [body.py], [gravity], [time2str],
  [str2time], [constellation_minimum_size] and [constellation_radius].
  Then the rest of [orbit_angles.py] ([eccentric_anomaly_at_true_anomaly],
  [mean_anomaly_at_true_anomaly], the conversions between time and
  anomalies, [true_anomaly_at_escape]) and, from [body.py],
  [escape_velocity_at_distance] and [angular_diameter].

  Not embedded: the constructor of [CelestialBody] and
  [global_position_at_time], which read an [Orbit] and a [Vec3] that are
  defined elsewhere, and the OpenGL programs around the package. *)

From Stdlib Require Import Reals Psatz ZArith QArith Qabs Qround Qpower Qreals.
From Stdlib Require Import Bool String Ascii.
From Stdlib Require Import DecimalString DecimalPos.
From Stdlib Require Floats.

Set Implicit Arguments.

(** ** The Python run time: exceptions, floats, [math] *)

Module Py.

Inductive exn : Set :=
| ZeroDivisionError
| ValueError            (* math domain error *)
| AttributeError        (* attribute read on None *)
| NotReal               (* a float power whose value is complex *)
| OverflowError         (* math range error *)
| UserException (class_name : string).

Inductive pyresult (A : Type) : Type :=
| Ok (a : A)
| Raise (e : exn).
Arguments Ok {A} a.
Arguments Raise {A} e.

Definition bind {A B} (m : pyresult A) (k : A -> pyresult B) : pyresult B :=
  match m with
  | Ok a => k a
  | Raise e => Raise e
  end.

Definition raises {A} (m : pyresult A) : Prop :=
  exists e, m = Raise e.

Definition returns {A} (m : pyresult A) : Prop :=
  exists a, m = Ok a.

(** A float: finite, infinite or not a number. *)
Inductive pyfloat : Type :=
| Fin (x : R)
| PInf
| NInf
| NaN.

Local Open Scope R_scope.

(** [x < y] on floats: every comparison with [nan] is false. *)
Definition flt (x y : pyfloat) : bool :=
  match x, y with
  | NaN, _ | _, NaN => false
  | Fin a, Fin b => if Rlt_dec a b then true else false
  | Fin _, PInf => true
  | Fin _, NInf => false
  | NInf, NInf => false
  | NInf, _ => true
  | PInf, _ => false
  end.

(** [x / y] on floats: a zero divisor raises whatever the dividend. *)
Definition fdiv (x y : pyfloat) : pyresult pyfloat :=
  match y with
  | NaN => Ok NaN
  | Fin b =>
      if Req_dec_T b 0 then Raise ZeroDivisionError
      else match x with
           | Fin a => Ok (Fin (a / b))
           | PInf => Ok (if Rlt_dec 0 b then PInf else NInf)
           | NInf => Ok (if Rlt_dec 0 b then NInf else PInf)
           | NaN => Ok NaN
           end
  | PInf | NInf =>
      match x with
      | Fin _ => Ok (Fin 0)
      | _ => Ok NaN
      end
  end.

(** [x - y] on floats. *)
Definition fsub (x y : pyfloat) : pyfloat :=
  match x, y with
  | NaN, _ | _, NaN => NaN
  | Fin a, Fin b => Fin (a - b)
  | PInf, PInf | NInf, NInf => NaN
  | PInf, _ => PInf
  | NInf, _ => NInf
  | Fin _, PInf => NInf
  | Fin _, NInf => PInf
  end.

(** [x / y] on finite floats. *)
Definition truediv (x y : R) : pyresult R :=
  if Req_dec_T y 0 then Raise ZeroDivisionError else Ok (x / y).

(** [math.sqrt]. *)
Definition math_sqrt (x : R) : pyresult R :=
  if Rlt_dec x 0 then Raise ValueError else Ok (sqrt x).

(** [math.acos] on a finite float. *)
Definition math_acos (x : R) : pyresult R :=
  if Rlt_dec x (-1) then Raise ValueError
  else if Rlt_dec 1 x then Raise ValueError
  else Ok (acos x).

(** [math.acos] on any float: [nan] goes through, an infinity is out of
    the domain. *)
Definition facos (x : pyfloat) : pyresult pyfloat :=
  match x with
  | NaN => Ok NaN
  | PInf | NInf => Raise ValueError
  | Fin a => bind (math_acos a) (fun v => Ok (Fin v))
  end.

(** [math.atan2 y x], the angle of the point [(x, y)] in [(-pi, pi]]. *)
Definition math_atan2 (y x : R) : R :=
  if Rlt_dec 0 x then atan (y / x)
  else if Rlt_dec x 0 then
         if Rle_dec 0 y then atan (y / x) + PI else atan (y / x) - PI
  else if Rlt_dec 0 y then PI / 2
  else if Rlt_dec y 0 then - (PI / 2)
  else 0.

(** [x ** y] on finite floats.  A positive base gives [exp (y * ln x)].
    A negative base has a real power only for a whole exponent. *)
Definition float_pow (x y : R) : pyresult R :=
  if Rlt_dec 0 x then Ok (Rpower x y)
  else if Req_dec_T x 0 then
         if Rlt_dec 0 y then Ok 0
         else if Req_dec_T y 0 then Ok 1
         else Raise ZeroDivisionError
  else if Req_dec_T (IZR (Int_part y)) y then Ok (powerRZ x (Int_part y))
  else Raise NotReal.

(** [x % y] on finite floats: the remainder has the sign of [y]. *)
Definition fmod (x y : R) : pyresult R :=
  if Req_dec_T y 0 then Raise ZeroDivisionError
  else Ok (x - IZR (Int_part (x / y)) * y).

(** [math.ceil]: the least integer not below [x]. *)
Definition math_ceil (x : R) : Z := (- Int_part (- x))%Z.

End Py.

Import Py.

Declare Scope py_scope.
Delimit Scope py_scope with py.
Notation "x <- m ;; k" := (bind m (fun x => k))
  (at level 61, m at next level, right associativity) : py_scope.

(** ** spyce/orbit_angles.py *)

Module OrbitAngles.

Local Open Scope R_scope.
Local Open Scope py_scope.

(** [class OrbitGeometry]: the eccentricity alone. *)
Record OrbitGeometry : Type := mkGeometry { eccentricity : R }.

(** [class OrbitAngles(OrbitGeometry)]: the attributes that
    [true_anomaly_at_distance] reads.  They are set by the [Orbit] class,
    which is not part of the sources at hand; an open trajectory may carry
    an infinite or negative apoapsis, so the three distances are floats. *)
Record OrbitAngles : Type := mkAngles {
  geometry : OrbitGeometry;
  periapsis : pyfloat;
  apoapsis : pyfloat;
  semi_latus_rectum : pyfloat
}.

Section Kepler.

(** [spyce.analysis.newton_raphson(x_0, f, f_prime)], the root finder
    of the elliptic and hyperbolic branches; its code is not part of the
    sources at hand. *)
Variable newton_raphson : R -> (R -> R) -> (R -> R) -> pyresult R.

Definition ejection_angle (self : OrbitGeometry) : pyresult pyfloat :=
  if Rlt_dec (eccentricity self) 1 then Ok PInf
  else
    c <- truediv (-1) (eccentricity self) ;;
    a <- math_acos c ;;
    Ok (Fin a).

Definition mean_anomaly_at_eccentric_anomaly
  (self : OrbitGeometry) (eccentric_anomaly : R) : R :=
  let e := eccentricity self in
  let E := eccentric_anomaly in
  if Rlt_dec e 1 then E - e * sin E
  else if Req_dec_T e 1 then (E ^ 3 + E * 3) / 2
  else e * sinh E - E.

Definition eccentric_anomaly_at_mean_anomaly
  (self : OrbitGeometry) (mean_anomaly : R) : pyresult R :=
  let M := mean_anomaly in
  let e := eccentricity self in
  if Rlt_dec e 1 then
    M <- fmod M (2 * PI) ;;
    if Rlt_dec (Rabs M) (/ 2 ^ 26) then truediv M (1 - e)
    else newton_raphson PI
           (fun E => E - e * sin E - M)
           (fun E => 1 - e * cos E)
  else if Req_dec_T e 1 then
    s <- math_sqrt (M ^ 2 + 1) ;;
    z <- float_pow (M + s) (1 / 3) ;;
    w <- truediv 1 z ;;
    Ok (z - w)
  else
    if Rlt_dec (Rabs M) (/ 2 ^ 26) then truediv M (e - 1)
    else newton_raphson 1
           (fun E => e * sinh E - E - M)
           (fun E => e * cosh E - 1).

Definition true_anomaly_at_eccentric_anomaly
  (self : OrbitGeometry) (eccentric_anomaly : R) : pyresult R :=
  let E := eccentric_anomaly in
  let e := eccentricity self in
  if Rlt_dec e 1 then
    a <- math_sqrt (1 - e) ;;
    b <- math_sqrt (1 + e) ;;
    let x := a * cos (E / 2) in
    let y := b * sin (E / 2) in
    Ok (2 * math_atan2 y x)
  else if Req_dec_T e 1 then Ok (2 * atan E)
  else
    a <- math_sqrt (e - 1) ;;
    b <- math_sqrt (e + 1) ;;
    let x := a * cosh (E / 2) in
    let y := b * sinh (E / 2) in
    Ok (2 * math_atan2 y x).

Definition true_anomaly_at_mean_anomaly
  (self : OrbitGeometry) (mean_anomaly : R) : pyresult R :=
  E <- eccentric_anomaly_at_mean_anomaly self mean_anomaly ;;
  true_anomaly_at_eccentric_anomaly self E.

End Kepler.

(** [OrbitAngles.true_anomaly_at_distance]. *)
Definition true_anomaly_at_distance
  (self : OrbitAngles) (distance : pyfloat) : pyresult pyfloat :=
  let e := eccentricity (geometry self) in
  if Req_dec_T e 0 then Ok NaN
  else if flt distance (periapsis self) then Ok NaN
  else if flt (Fin 0) (apoapsis self) && flt (apoapsis self) distance
       then Ok NaN
  else
    q <- fdiv (semi_latus_rectum self) distance ;;
    c <- fdiv (fsub q (Fin 1)) (Fin e) ;;
    facos c.

(** The three guards of [true_anomaly_at_distance]: a circular orbit, a
    distance below the periapsis, a closed orbit whose apoapsis is below
    the distance. *)
Definition no_solution (self : OrbitAngles) (distance : pyfloat) : Prop :=
  eccentricity (geometry self) = 0
  \/ flt distance (periapsis self) = true
  \/ (flt (Fin 0) (apoapsis self) = true
      /\ flt (apoapsis self) distance = true).

(** Modelled from the spec: the [Orbit] class that sets the attributes of
    an [OrbitAngles] is missing.  The glossary gives the semi-latus rectum
    as the [p] of [r = p / (1 + e cos v)] and the periapsis and apoapsis
    as the closest and farthest points: the closest is [p / (1 + e)], the
    farthest of a closed orbit is [p / (1 - e)], and an open trajectory
    has no farthest point (its apoapsis is infinite or not positive). *)
Definition conic (self : OrbitAngles) : Prop :=
  let e := eccentricity (geometry self) in
  exists p : R,
    0 < p /\ 0 <= e
    /\ semi_latus_rectum self = Fin p
    /\ periapsis self = Fin (p / (1 + e))
    /\ (e < 1 -> apoapsis self = Fin (p / (1 - e)))
    /\ (1 <= e ->
        apoapsis self = PInf \/ flt (Fin 0) (apoapsis self) = false).

End OrbitAngles.

(** ** spyce/body.py *)

Module Body.

Local Open Scope Q_scope.
Local Open Scope string_scope.
Local Open Scope py_scope.

(** [class InvalidConstellation(Exception)]. *)
Definition InvalidConstellation : exn := UserException "InvalidConstellation".

(** The orbit of a body, as far as the queries below read it. *)
Record Orbit : Type := mkOrbit { period : Q }.

(** [class CelestialBody], after construction. *)
Record CelestialBody : Type := mkBody {
  name : string;
  gravitational_parameter : Q;
  radius : Q;
  rotational_period : Q;
  orbit : option Orbit
}.

(** [self.orbit.period]: reading an attribute of [None] raises. *)
Definition orbit_period (self : CelestialBody) : pyresult Q :=
  match orbit self with
  | Some o => Ok (period o)
  | None => Raise AttributeError
  end.

(** [x < y] on rational floats. *)
Definition qltb (x y : Q) : bool := negb (Qle_bool y x).

(** [x / y] on rational floats. *)
Definition qdiv (x y : Q) : pyresult Q :=
  if Qeq_bool y 0 then Raise ZeroDivisionError else Ok (x / y).

(** [divmod(a, b)] on floats: the quotient is a whole number, the
    remainder has the sign of [b]. *)
Definition divmod (a b : Q) : pyresult (Z * Q) :=
  if Qeq_bool b 0 then Raise ZeroDivisionError
  else let q := Qfloor (a / b) in Ok (q, a - inject_Z q * b).

(** *** String formatting ([%] on a format string) *)

(** The decimal digits of an integer, with a sign when negative. *)
Definition decimal (n : Z) : string := NilZero.string_of_int (Z.to_int n).

Fixpoint replicate (n : nat) (c : ascii) : string :=
  match n with
  | O => EmptyString
  | S n' => String c (replicate n' c)
  end.

(** Right-justify [s] in [width] columns with blanks ([%4u], [%3u]). *)
Definition pad_blank (width : nat) (s : string) : string :=
  replicate (width - String.length s) " " ++ s.

(** Right-justify in [width] columns with zeros, which go between the
    sign and the digits ([%02u], [%04.1f]). *)
Definition pad_zero (width : nat) (s : string) : string :=
  match s with
  | String "-" digits =>
      String "-" (replicate (width - String.length s) "0" ++ digits)
  | _ => replicate (width - String.length s) "0" ++ s
  end.

(** Rounding to the nearest integer, ties to the even one. *)
Definition round_half_even (q : Q) : Z :=
  let f := Qfloor q in
  match Qcompare (q - inject_Z f) (1 # 2) with
  | Lt => f
  | Gt => (f + 1)%Z
  | Eq => if Z.even f then f else (f + 1)%Z
  end.

(** [%u] applied to a whole float. *)
Definition fmt_u (width : nat) (n : Z) : string :=
  pad_blank width (decimal n).

(** [%02u] applied to a whole float. *)
Definition fmt_02u (n : Z) : string := pad_zero 2 (decimal n).

(** [%04.1f]: one digit after the point, at least four columns. *)
Definition fmt_04_1f (x : Q) : string :=
  let t := round_half_even (Qabs x * 10) in
  let body :=
    decimal (t / 10) ++ "." ++ decimal (t mod 10) in
  pad_zero 4 (if qltb x 0 then String "-" body else body).

Fixpoint strip_trailing_zeros (s : string) : string :=
  match s with
  | EmptyString => EmptyString
  | String c r =>
      let r' := strip_trailing_zeros r in
      match r' with
      | EmptyString => if Ascii.eqb c "0" then EmptyString else String c r'
      | _ => String c r'
      end
  end.

(** [%.5g] applied to a whole float: plain digits below [100000];
    otherwise five significant digits, trailing zeros dropped, and a
    decimal exponent of two digits or more. *)
Definition fmt_5g (n : Z) : string :=
  let a := Z.abs n in
  let sign := if (n <? 0)%Z then "-" else "" in
  if (a <? 100000)%Z then sign ++ decimal a
  else
    let len := String.length (decimal a) in
    let scale := inject_Z (10 ^ Z.of_nat (len - 5)) in
    let m := round_half_even (inject_Z a / scale) in
    let '(m, x) :=
      if (m =? 100000)%Z then (10000%Z, len) else (m, (len - 1)%nat) in
    match decimal m with
    | String lead rest =>
        let frac := strip_trailing_zeros rest in
        sign ++ String lead
          (match frac with
           | EmptyString => ""
           | _ => String "." frac
           end)
        ++ "e+" ++ pad_zero 2 (decimal (Z.of_nat x))
    | EmptyString => sign
    end.

Definition time2str (self : CelestialBody) (seconds : Q) : pyresult string :=
  let sign := if qltb seconds 0 then "-" else "+" in
  let seconds := Qabs seconds in
  P <- orbit_period self ;;
  ys <- divmod seconds P ;;
  ds <- divmod (snd ys) (rotational_period self) ;;
  hs <- divmod (snd ds) 3600 ;;
  ms <- divmod (snd hs) 60 ;;
  Ok (sign ++ fmt_5g (fst ys) ++ "y," ++ fmt_u 4 (fst ds) ++ "d,"
           ++ fmt_u 3 (fst hs) ++ ":" ++ fmt_02u (fst ms) ++ ":"
           ++ fmt_04_1f (snd ms)).

(** *** The regular expression of [str2time] *)

Definition code (c : ascii) : N := N_of_ascii c.

(** [\d], within the first 256 code points. *)
Definition is_digit (c : ascii) : bool :=
  (48 <=? code c)%N && (code c <=? 57)%N.

(** [\s], within the first 256 code points. *)
Definition is_space (c : ascii) : bool :=
  let n := code c in
  ((9 <=? n)%N && (n <=? 13)%N) || ((28 <=? n)%N && (n <=? 32)%N)
  || (n =? 133)%N || (n =? 160)%N.

(** [[\s,]]. *)
Definition is_separator (c : ascii) : bool :=
  is_space c || Ascii.eqb c ",".

(** The longest prefix of [s] whose characters satisfy [p], and the rest:
    a greedy [p*]. *)
Fixpoint span (p : ascii -> bool) (s : string) : string * string :=
  match s with
  | EmptyString => (EmptyString, EmptyString)
  | String c r =>
      if p c then let '(a, b) := span p r in (String c a, b)
      else (EmptyString, s)
  end.

(** [(\d+)c]: a non-empty run of digits followed by the character [c].
    The run is followed by a non-digit, so giving digits back cannot help
    and the greedy run is the only candidate. *)
Definition digits_then (c : ascii) (s : string) : option (string * string) :=
  let '(ds, rest) := span is_digit s in
  match ds, rest with
  | String _ _, String c' rest' =>
      if Ascii.eqb c' c then Some (ds, rest') else None
  | _, _ => None
  end.

(** The optional years and days fields: [(\d+)c] followed by any number
    of [[\s,]], all of it optional. *)
Definition unit_field (c : ascii) (s : string) : option string * string :=
  match digits_then c s with
  | Some (ds, rest) => (Some ds, snd (span is_separator rest))
  | None => (None, s)
  end.

(** [(\d+(?:\.\d+)?)]: the seconds, with an optional fraction. *)
Definition seconds_field (s : string) : option string :=
  let '(ss, rest) := span is_digit s in
  match ss with
  | EmptyString => None
  | _ =>
      match rest with
      | String "." rest' =>
          match fst (span is_digit rest') with
          | EmptyString => Some ss
          | ff => Some (ss ++ "." ++ ff)
          end
      | _ => Some ss
      end
  end.

(** What [match.groups()] returns: [None] for a group that took no part
    in the match. *)
Record groups : Type := mkGroups {
  g_sign : string;
  g_years : option string;
  g_days : option string;
  g_hours : option string;
  g_minutes : option string;
  g_seconds : option string
}.

(** [([-+]?)]: the sign, possibly empty. *)
Definition sign_field (s : string) : string * string :=
  match s with
  | String c r =>
      if Ascii.eqb c "-" || Ascii.eqb c "+" then (String c "", r)
      else ("", s)
  | EmptyString => ("", s)
  end.

(** The optional clock: [(\d+):(\d+)], then optionally a colon and the
    seconds.  The result is the hours, minutes and seconds groups. *)
Definition clock_field (s : string)
  : option string * option string * option string :=
  match digits_then ":" s with
  | Some (hh, rest) =>
      match span is_digit rest with
      | (EmptyString, _) => (None, None, None)
      | (mm, rest') =>
          (Some hh, Some mm,
           match rest' with
           | String ":" rest'' => seconds_field rest''
           | _ => None
           end)
      end
  | None => (None, None, None)
  end.

(** [regex.match(formatted_time).groups()].  Every part of the pattern
    after the sign is optional, so the match never fails, and each
    optional part is taken exactly when it matches where it stands. *)
Definition regex_match (s : string) : groups :=
  let sg := sign_field s in
  let ys := unit_field "y" (snd sg) in
  let ds := unit_field "d" (snd ys) in
  let hms := clock_field (snd ds) in
  mkGroups (fst sg) (fst ys) (fst ds)
           (fst (fst hms)) (snd (fst hms)) (snd hms).

(** The value of a string of decimal digits. *)
Definition digits_value (s : string) : option Z :=
  option_map Z.of_uint (NilEmpty.uint_of_string s).

(** [float(s)] for [s] of the form digits, or digits [.] digits with one
    side possibly empty.  The groups of the pattern are of this form;
    the rest of Python's float syntax (exponents, [inf], blanks) is not
    modelled and is rejected here. *)
Definition py_float (s : string) : pyresult Q :=
  let '(ip, rest) := span is_digit s in
  match rest with
  | EmptyString =>
      match ip, digits_value ip with
      | String _ _, Some n => Ok (inject_Z n)
      | _, _ => Raise ValueError
      end
  | String "." fp =>
      match digits_value ip, digits_value fp with
      | Some n, Some f =>
          if ((String.length ip + String.length fp) =? 0)%nat
          then Raise ValueError
          else Ok (inject_Z n
                   + inject_Z f / inject_Z (10 ^ Z.of_nat (String.length fp)))
      | _, _ => Raise ValueError
      end
  | _ => Raise ValueError
  end.

(** [float(group) if group else 0]. *)
Definition group_value (group : option string) : pyresult Q :=
  match group with
  | None | Some EmptyString => Ok 0
  | Some s => py_float s
  end.

Definition str2time (self : CelestialBody) (formatted_time : string)
  : pyresult Q :=
  let g := regex_match formatted_time in
  y <- group_value (g_years g) ;;
  d <- group_value (g_days g) ;;
  h <- group_value (g_hours g) ;;
  m <- group_value (g_minutes g) ;;
  s <- group_value (g_seconds g) ;;
  P <- orbit_period self ;;
  let s := s + y * P in
  let s := s + d * rotational_period self in
  let s := s + h * 3600 in
  let s := s + m * 60 in
  Ok (if String.eqb (g_sign g) "-" then - s else s).

Definition gravity (self : CelestialBody) (distance : option Q)
  : pyresult Q :=
  let distance :=
    match distance with None => radius self | Some d => d end in
  if Qeq_bool distance 0 then Ok 0
  else
    let mu := gravitational_parameter self in
    mu <- (if qltb distance (radius self)
           then k <- qdiv (distance ^ 3) (radius self ^ 3) ;; Ok (mu * k)
           else Ok mu) ;;
    qdiv mu (distance ^ 2).

Definition constellation_minimum_size
  (self : CelestialBody) (communication_range : Q) : pyresult Z :=
  a <- qdiv communication_range (radius self) ;;
  r <- truediv PI (atan (Q2R (a / 2))) ;;
  Ok (math_ceil r).

Definition constellation_radius
  (self : CelestialBody) (communication_range : Q) (size : Z)
  : pyresult (R * R) :=
  if (size <? 3)%Z then Raise InvalidConstellation
  else
    a <- truediv PI (IZR size) ;;
    lo <- truediv (Q2R (radius self)) (cos a) ;;
    hi <- truediv (Q2R communication_range) (sin a) ;;
    Ok (lo, (hi / 2)%R).

(** *** Vocabulary of the statements *)

(** The computation returns a rational equal to [v]. *)
Definition value_is (m : pyresult Q) (v : Q) : Prop :=
  exists q, m = Ok q /\ q == v.

(** The remainder of [divmod a b]. *)
Definition remainder (a b : Q) : Q := a - inject_Z (Qfloor (a / b)) * b.

(** The seconds that [time2str] prints last: what is left of the duration
    after the whole years, days, hours and minutes. *)
Definition clock_seconds (self : CelestialBody) (o : Orbit) (seconds : Q)
  : Q :=
  remainder
    (remainder
       (remainder (remainder (Qabs seconds) (period o))
                  (rotational_period self))
       3600)
    60.

(** The round trip of a duration through [time2str] and [str2time]: the
    text is read back to within half a tenth of a second, with the sign
    of the duration; exactly when the seconds to print are a whole number
    of tenths; and to a millionth of the duration from 50000 s on. *)
Definition round_trip (self : CelestialBody) (o : Orbit) (t : Q) : Prop :=
  exists (s : string) (r : Q),
    time2str self t = Ok s /\ str2time self s = Ok r
    /\ Qabs (r - t) <= 1 # 20
    /\ (t < 0 -> r <= 0) /\ (0 <= t -> 0 <= r)
    /\ ((exists k : Z, clock_seconds self o t * 10 == inject_Z k)
        -> r == t)
    /\ (50000 <= Qabs t -> Qabs (r - t) <= (1 # 1000000) * Qabs t).

(** Every character of [s] satisfies [p]. *)
Fixpoint all (p : ascii -> bool) (s : string) : bool :=
  match s with
  | EmptyString => true
  | String c r => p c && all p r
  end.

(** A non-empty run of decimal digits, what [\d+] captures. *)
Definition digit_run (s : string) : Prop :=
  s <> EmptyString /\ all is_digit s = true.

(** [s] is empty or starts with a character that fails [p]. *)
Definition stops (p : ascii -> bool) (s : string) : Prop :=
  match s with
  | EmptyString => True
  | String c _ => p c = false
  end.

(** What the seconds group captures: a digit run, or two digit runs
    around a point. *)
Definition seconds_form (x : string) : Prop :=
  digit_run x
  \/ exists a f, x = a ++ "." ++ f /\ digit_run a /\ digit_run f.

End Body.

(** ** More of [math] *)

Module PyMath.

Local Open Scope R_scope.

(** [math.tan].  The tangent of the reals has poles at the odd multiples
    of [pi/2], which no float is; there this function takes the value of
    Rocq's [tan]. *)
Definition math_tan (x : R) : R := tan x.

(** The inverse hyperbolic tangent on [(-1, 1)]. *)
Definition atanh (x : R) : R := / 2 * ln ((1 + x) / (1 - x)).

(** [math.atanh]: defined strictly between -1 and 1. *)
Definition math_atanh (x : R) : pyresult R :=
  if Rlt_dec (-1) x then
    if Rlt_dec x 1 then Ok (atanh x) else Raise ValueError
  else Raise ValueError.

(** [math.asin] on a finite float. *)
Definition math_asin (x : R) : pyresult R :=
  if Rlt_dec x (-1) then Raise ValueError
  else if Rlt_dec 1 x then Raise ValueError
  else Ok (asin x).

End PyMath.

Import PyMath.

(** ** spyce/orbit_angles.py, the conversions from the true anomaly *)

Module Anomaly.

Import OrbitAngles.
Local Open Scope R_scope.
Local Open Scope py_scope.

Definition eccentric_anomaly_at_true_anomaly
  (self : OrbitGeometry) (true_anomaly : R) : pyresult R :=
  let v := true_anomaly in
  let e := eccentricity self in
  if Rlt_dec e 1 then
    a <- math_sqrt (1 + e) ;;
    let x := a * cos (v / 2) in
    b <- math_sqrt (1 - e) ;;
    let y := b * sin (v / 2) in
    Ok (2 * math_atan2 y x)
  else if Req_dec_T e 1 then Ok (math_tan (v / 2))
  else
    q <- truediv (e - 1) (e + 1) ;;
    s <- math_sqrt q ;;
    t <- math_atanh (s * math_tan (v / 2)) ;;
    Ok (2 * t).

Definition mean_anomaly_at_true_anomaly
  (self : OrbitGeometry) (true_anomaly : R) : pyresult R :=
  E <- eccentric_anomaly_at_true_anomaly self true_anomaly ;;
  Ok (mean_anomaly_at_eccentric_anomaly self E).

End Anomaly.

(** ** spyce/orbit_angles.py, the time axis of [OrbitAngles] *)

Module OrbitTime.

Import OrbitAngles Anomaly.
Local Open Scope R_scope.
Local Open Scope py_scope.

(** The body an orbit goes around, as far as [true_anomaly_at_escape]
    reads it. *)
Record Primary : Type := mkPrimary { sphere_of_influence : pyfloat }.

(** An [OrbitAngles] with the attributes of its time axis. *)
Record TimedOrbit : Type := mkTimed {
  angles : OrbitAngles;
  primary : Primary;
  epoch : R;
  mean_anomaly_at_epoch : R;
  mean_motion : R
}.

Section Kepler.

Variable newton_raphson : R -> (R -> R) -> (R -> R) -> pyresult R.

Definition time_at_mean_anomaly
  (self : TimedOrbit) (mean_anomaly : R) : pyresult R :=
  q <- truediv (mean_anomaly - mean_anomaly_at_epoch self)
               (mean_motion self) ;;
  Ok (epoch self + q).

Definition time_at_eccentric_anomaly
  (self : TimedOrbit) (eccentric_anomaly : R) : pyresult R :=
  let M :=
    mean_anomaly_at_eccentric_anomaly (geometry (angles self))
                                      eccentric_anomaly in
  time_at_mean_anomaly self M.

Definition time_at_true_anomaly
  (self : TimedOrbit) (true_anomaly : R) : pyresult R :=
  M <- mean_anomaly_at_true_anomaly (geometry (angles self)) true_anomaly ;;
  time_at_mean_anomaly self M.

Definition mean_anomaly_at_time (self : TimedOrbit) (time : R) : R :=
  mean_anomaly_at_epoch self + mean_motion self * (time - epoch self).

Definition eccentric_anomaly_at_time
  (self : TimedOrbit) (time : R) : pyresult R :=
  let M := mean_anomaly_at_time self time in
  eccentric_anomaly_at_mean_anomaly newton_raphson
    (geometry (angles self)) M.

Definition true_anomaly_at_time
  (self : TimedOrbit) (time : R) : pyresult R :=
  let M := mean_anomaly_at_time self time in
  true_anomaly_at_mean_anomaly newton_raphson (geometry (angles self)) M.

End Kepler.

Definition true_anomaly_at_escape (self : TimedOrbit) : pyresult pyfloat :=
  true_anomaly_at_distance (angles self)
                           (sphere_of_influence (primary self)).

End OrbitTime.

(** ** spyce/body.py, the queries on distances *)

Module BodyQueries.

Import Body.
Local Open Scope Q_scope.
Local Open Scope py_scope.

Definition escape_velocity_at_distance
  (self : CelestialBody) (distance : Q) : pyresult R :=
  q <- qdiv (2 * gravitational_parameter self) distance ;;
  math_sqrt (Q2R q).

Definition angular_diameter
  (self : CelestialBody) (distance : Q) : pyresult R :=
  q <- qdiv (radius self) distance ;;
  a <- math_asin (Q2R q) ;;
  Ok (2 * a)%R.

(** A length whose square and cube are within the exponent range of
    doubles: 0, or of a magnitude from [2^-300] to [2^300].  Beyond it
    [distance**3] raises [OverflowError], and a square or a cube that
    underflows is 0. *)
Definition powers_in_range (x : Q) : Prop :=
  x == 0 \/ (2 ^ (-300) <= Qabs x /\ Qabs x <= 2 ^ 300).

End BodyQueries.

(** ** The hyperbolic functions within the exponent range of doubles *)

Module Ranged.

Import OrbitAngles.
Local Open Scope R_scope.
Local Open Scope py_scope.

(** [math.cosh]: a result beyond the largest double, which is below
    [2^1024], is an [OverflowError]. *)
Definition math_cosh (x : R) : pyresult R :=
  if Rlt_dec (cosh x) (2 ^ 1024) then Ok (cosh x) else Raise OverflowError.

(** [math.sinh], likewise. *)
Definition math_sinh (x : R) : pyresult R :=
  if Rlt_dec (Rabs (sinh x)) (2 ^ 1024) then Ok (sinh x)
  else Raise OverflowError.

(** [OrbitGeometry.true_anomaly_at_eccentric_anomaly], with the overflow
    of its two hyperbolic functions. *)
Definition true_anomaly_at_eccentric_anomaly
  (self : OrbitGeometry) (eccentric_anomaly : R) : pyresult R :=
  let E := eccentric_anomaly in
  let e := eccentricity self in
  if Rlt_dec e 1 then
    a <- math_sqrt (1 - e) ;;
    b <- math_sqrt (1 + e) ;;
    let x := a * cos (E / 2) in
    let y := b * sin (E / 2) in
    Ok (2 * math_atan2 y x)
  else if Req_dec_T e 1 then Ok (2 * atan E)
  else
    a <- math_sqrt (e - 1) ;;
    c <- math_cosh (E / 2) ;;
    let x := a * c in
    b <- math_sqrt (e + 1) ;;
    s <- math_sinh (E / 2) ;;
    let y := b * s in
    Ok (2 * math_atan2 y x).

(** How far inside the ejection angles the true anomaly of a hyperbolic
    trajectory stays, at the least: [sqrt (e^2 - 1) / e * exp (- |E|)]. *)
Definition ejection_margin (e E : R) : R :=
  sqrt (e ^ 2 - 1) / e * exp (- Rabs E).

End Ranged.

(** ** The arithmetic of the source on binary64 doubles

    Where the outcome of a call is decided by the rounding of doubles,
    the source is run on Rocq's primitive floats, which are the binary64
    doubles of Python.  Additions, subtractions, products, quotients,
    square roots and comparisons are those of the machine.  The functions
    of the C library are not: a call to one of them is either kept as a
    call ([acos_of]) or answered only where the answer does not depend
    on the library. *)

Module Binary64.

Import PrimFloat FloatOps SpecFloat.
Local Open Scope float_scope.
Local Open Scope py_scope.

(** [math.pi]. *)
Definition math_pi : float := 0x1.921fb54442d18p+1.

(** The double nearest to [pi / 2], which is below it. *)
Definition half_pi : float := 0x1.921fb54442d18p+0.

(** [x / y]. *)
Definition truediv (x y : float) : pyresult float :=
  if y =? 0 then Raise ZeroDivisionError else Ok (x / y).

(** [math.sqrt]. *)
Definition math_sqrt (x : float) : pyresult float :=
  if x <? 0 then Raise ValueError else Ok (sqrt x).

(** Whether a double is an odd whole number. *)
Definition is_odd_integer (y : float) : bool :=
  match Prim2SF y with
  | S754_finite _ m e =>
      if (0 <? e)%Z then false
      else (Zpos m mod 2 ^ (- e) =? 0)%Z && Z.odd (Zpos m / 2 ^ (- e))
  | _ => false
  end.

(** [x ** y], as far as the interpreter decides it before it calls the
    C library: a zero exponent, a [nan], a zero base; and the square,
    taken correctly rounded, with the [OverflowError] of a result out of
    range.  [None] stands for the other calls of [pow]. *)
Definition float_pow (x y : float) : option (pyresult float) :=
  if y =? 0 then Some (Ok 1)
  else if is_nan x then Some (Ok x)
  else if is_nan y then Some (Ok (if x =? 1 then 1 else y))
  else if is_infinity x || is_infinity y then None
  else if x =? 0 then
    if y <? 0 then Some (Raise ZeroDivisionError)
    else Some (Ok (if is_odd_integer y then x else 0))
  else if y =? 2 then
    Some (if is_infinity (x * x) then Raise OverflowError else Ok (x * x))
  else None.

(** The parabolic branch of
    [OrbitGeometry.eccentric_anomaly_at_mean_anomaly]; the other two
    call the root finder. *)
Definition eccentric_anomaly_at_mean_anomaly (e M : float)
  : option (pyresult float) :=
  if e <? 1 then None
  else if e =? 1 then
    match float_pow M 2 with
    | Some (Ok m2) =>
        match math_sqrt (m2 + 1) with
        | Ok s =>
            match float_pow (M + s) (1 / 3) with
            | Some (Ok z) => Some (w <- truediv 1 z ;; Ok (z - w))
            | other => other
            end
        | Raise x => Some (Raise x)
        end
    | other => other
    end
  else None.

(** A float returned by [true_anomaly_at_distance]: [nan], or what
    [math.acos] returns for a double of [[-1, 1]]. *)
Inductive angle : Set :=
| nan_angle
| acos_of (q : float).

(** [math.acos]: [nan] goes through, anything else outside [[-1, 1]] is
    a domain error. *)
Definition math_acos (q : float) : pyresult angle :=
  if is_nan q then Ok nan_angle
  else if (q <? -1) || (1 <? q) then Raise ValueError
  else Ok (acos_of q).

(** [class OrbitAngles], the attributes [true_anomaly_at_distance]
    reads. *)
Record OrbitAngles : Set := mkAngles {
  eccentricity : float;
  periapsis : float;
  apoapsis : float;
  semi_latus_rectum : float
}.

(** The three guards of [true_anomaly_at_distance]. *)
Definition no_solution (self : OrbitAngles) (distance : float) : bool :=
  (eccentricity self =? 0)
  || (distance <? periapsis self)
  || ((0 <? apoapsis self) && (apoapsis self <? distance)).

(** [OrbitAngles.true_anomaly_at_distance]. *)
Definition true_anomaly_at_distance
  (self : OrbitAngles) (distance : float) : pyresult angle :=
  if eccentricity self =? 0 then Ok nan_angle
  else if distance <? periapsis self then Ok nan_angle
  else if (0 <? apoapsis self) && (apoapsis self <? distance)
       then Ok nan_angle
  else
    q <- truediv (semi_latus_rectum self) distance ;;
    c <- truediv (q - 1) (eccentricity self) ;;
    math_acos c.



(** [math.atan] where the answer does not depend on the library: from
    [2^66] on, the arc tangent is within [2^-66] of [pi / 2] and the
    double nearest to it is [half_pi]. *)
Definition math_atan (x : float) : option float :=
  if is_nan x then Some x
  else if 0x1p+66 <=? x then Some half_pi
  else if x <=? -0x1p+66 then Some (- half_pi)
  else None.

(** [math.ceil]: the least integer not below a finite double. *)
Definition math_ceil (x : float) : pyresult Z :=
  match Prim2SF x with
  | S754_zero _ => Ok 0%Z
  | S754_infinity _ => Raise OverflowError
  | S754_nan => Raise ValueError
  | S754_finite s m e =>
      let n := if s then Zneg m else Zpos m in
      Ok (if (0 <=? e)%Z then n * 2 ^ e
          else - ((- n) / 2 ^ (- e)))%Z
  end.

(** [CelestialBody.constellation_minimum_size], for a body of the given
    radius. *)
Definition constellation_minimum_size
  (radius communication_range : float) : option (pyresult Z) :=
  match truediv communication_range radius with
  | Raise x => Some (Raise x)
  | Ok a =>
      match math_atan (a / 2) with
      | None => None
      | Some t => Some (c <- truediv math_pi t ;; math_ceil c)
      end
  end.

End Binary64.

(** * Properties *)

Import OrbitAngles Body.

(** ** Anomalies and angles *)

Section OrbitAnglesProperties.

Local Open Scope R_scope.

Lemma truediv_ok (x y : R) : y <> 0 -> truediv x y = Ok (x / y).
Proof.
  intros H. unfold truediv.
  destruct (Req_dec_T y 0); [contradiction | reflexivity].
Qed.

Lemma math_acos_ok (x : R) : -1 <= x <= 1 -> math_acos x = Ok (acos x).
Proof.
  intros [H1 H2]. unfold math_acos.
  destruct (Rlt_dec x (-1)); [lra|].
  destruct (Rlt_dec 1 x); [lra|]. reflexivity.
Qed.

Lemma math_sqrt_ok (x : R) : 0 <= x -> math_sqrt x = Ok (sqrt x).
Proof.
  intros H. unfold math_sqrt. destruct (Rlt_dec x 0); [lra | reflexivity].
Qed.

Lemma acos_half : acos (1 / 2) = PI / 3.
Proof.
  rewrite <- cos_PI3. apply acos_cos.
  pose proof PI_RGT_0. lra.
Qed.

Lemma acos_minus_half : acos (- 1 / 2) = 2 * PI / 3.
Proof.
  replace (- 1 / 2) with (- (1 / 2)) by lra.
  rewrite acos_opp, acos_half. lra.
Qed.

Lemma acos_minus_one : acos (- 1 / 1) = PI.
Proof.
  replace (- 1 / 1) with (- (1)) by lra.
  rewrite acos_opp, acos_1. lra.
Qed.

Lemma PI_bounds : 3.14159 < PI < 3.14160.
Proof.
  pose proof (PI_2_3_7_ineq 3) as [Hlo Hhi].
  unfold sum_f_R0, tg_alt, PI_2_3_7_tg, Ratan_seq in Hlo, Hhi.
  simpl in Hlo, Hhi.
  split; lra.
Qed.

Lemma ejection_angle_closed (g : OrbitGeometry) :
  eccentricity g < 1 -> ejection_angle g = Ok PInf.
Proof.
  intros H. unfold ejection_angle.
  destruct (Rlt_dec (eccentricity g) 1); [reflexivity | lra].
Qed.

Lemma ejection_angle_open (g : OrbitGeometry) :
  1 <= eccentricity g ->
  ejection_angle g = Ok (Fin (acos (- 1 / eccentricity g))).
Proof.
  destruct g as [e]. simpl. intros H. unfold ejection_angle. simpl.
  destruct (Rlt_dec e 1); [lra|].
  rewrite truediv_ok by lra. cbn [bind].
  rewrite math_acos_ok; [reflexivity|].
  assert (0 < / e <= 1).
  { split; [apply Rinv_0_lt_compat; lra|].
    rewrite <- Rinv_1. apply Rinv_le_contravar; lra. }
  unfold Rdiv. lra.
Qed.

(** C6.  [ejection_angle()] returns [+inf] for every eccentricity below 1,
    in particular 0.5, and [acos(-1/eccentricity)] for every eccentricity
    from 1 on: [acos(-0.5)], within 0.0001 of 2.0944 rad, for eccentricity
    2, and [pi] for eccentricity 1. *)
Theorem ejection_angle_cases :
  (forall g, eccentricity g < 1 -> ejection_angle g = Ok PInf)
  /\ (forall g, 1 <= eccentricity g ->
        ejection_angle g = Ok (Fin (acos (- 1 / eccentricity g))))
  /\ ejection_angle (mkGeometry (1 / 2)) = Ok PInf
  /\ (ejection_angle (mkGeometry 2) = Ok (Fin (acos (- 1 / 2)))
      /\ Rabs (acos (- 1 / 2) - 2.0944) < 1 / 10000)
  /\ ejection_angle (mkGeometry 1) = Ok (Fin PI).
Proof.
  split; [exact ejection_angle_closed|].
  split; [exact ejection_angle_open|].
  split; [apply ejection_angle_closed; simpl; lra|].
  split; [split|].
  - rewrite ejection_angle_open by (simpl; lra). reflexivity.
  - rewrite acos_minus_half. pose proof PI_bounds.
    apply Rabs_def1; lra.
  - rewrite ejection_angle_open by (simpl; lra). simpl.
    rewrite acos_minus_one. reflexivity.
Qed.

Lemma cosh_pos (u : R) : 0 < cosh u.
Proof.
  unfold cosh. pose proof (exp_pos u). pose proof (exp_pos (- u)). lra.
Qed.

Lemma sinh_lt_cosh (u : R) : - cosh u < sinh u < cosh u.
Proof.
  unfold cosh, sinh. pose proof (exp_pos u). pose proof (exp_pos (- u)). lra.
Qed.

(** The hyperbolic tangent lies within [(-1, 1)]. *)
Lemma tanh_bound (u : R) : - 1 < tanh u < 1.
Proof.
  unfold tanh. pose proof (cosh_pos u) as Hc.
  pose proof (sinh_lt_cosh u) as [H1 H2].
  split.
  - apply Rmult_lt_reg_r with (cosh u); [exact Hc|].
    unfold Rdiv. rewrite Rmult_assoc, Rinv_l by lra. lra.
  - apply Rmult_lt_reg_r with (cosh u); [exact Hc|].
    unfold Rdiv. rewrite Rmult_assoc, Rinv_l by lra. lra.
Qed.

Lemma cos_double_atan (k : R) : cos (2 * atan k) = 2 / (1 + k * k) - 1.
Proof.
  pose proof (atan_bound k) as Hb.
  assert (Hc : 0 < cos (atan k)) by (apply cos_gt_0; lra).
  pose proof (tan_atan k) as Ht. unfold tan in Ht.
  assert (Hs : sin (atan k) = k * cos (atan k)).
  { rewrite <- Ht at 2. field. lra. }
  pose proof (sin2_cos2 (atan k)) as H1. unfold Rsqr in H1.
  rewrite Hs in H1.
  rewrite cos_2a_cos.
  assert (Hk : 0 < 1 + k * k) by nra.
  assert (cos (atan k) * cos (atan k) = / (1 + k * k)).
  { apply Rmult_eq_reg_r with (1 + k * k); [|lra].
    rewrite Rinv_l by lra. nra. }
  replace (2 * cos (atan k) * cos (atan k))
    with (2 * (cos (atan k) * cos (atan k))) by ring.
  rewrite H. unfold Rdiv. ring.
Qed.

Lemma double_atan_ejection (e : R) :
  1 < e -> 2 * atan (sqrt (e + 1) / sqrt (e - 1)) = acos (- 1 / e).
Proof.
  intros He.
  set (k := sqrt (e + 1) / sqrt (e - 1)).
  assert (Ha : 0 < sqrt (e - 1)) by (apply sqrt_lt_R0; lra).
  assert (Hb : 0 < sqrt (e + 1)) by (apply sqrt_lt_R0; lra).
  assert (Hk : 0 < k) by (unfold k; apply Rdiv_lt_0_compat; assumption).
  assert (Hkk : k * k = (e + 1) / (e - 1)).
  { unfold k.
    replace (sqrt (e + 1) / sqrt (e - 1) * (sqrt (e + 1) / sqrt (e - 1)))
      with ((sqrt (e + 1) * sqrt (e + 1)) / (sqrt (e - 1) * sqrt (e - 1)))
      by (field; lra).
    rewrite !sqrt_sqrt by lra. reflexivity. }
  assert (Hcos : cos (2 * atan k) = - 1 / e).
  { rewrite cos_double_atan, Hkk. field. lra. }
  rewrite <- Hcos. symmetry. apply acos_cos.
  pose proof (atan_bound k). 
  assert (0 < atan k) by (rewrite <- atan_0; apply atan_increasing; exact Hk).
  lra.
Qed.

Lemma atan2_right (y x : R) : 0 < x -> math_atan2 y x = atan (y / x).
Proof.
  intros H. unfold math_atan2. destruct (Rlt_dec 0 x); [reflexivity | lra].
Qed.

Lemma hyperbolic_true_anomaly (e E : R) :
  1 < e ->
  true_anomaly_at_eccentric_anomaly (mkGeometry e) E
  = Ok (2 * atan (sqrt (e + 1) / sqrt (e - 1) * tanh (E / 2))).
Proof.
  intros He. unfold true_anomaly_at_eccentric_anomaly. simpl.
  destruct (Rlt_dec e 1); [lra|].
  destruct (Req_dec_T e 1); [lra|].
  rewrite !math_sqrt_ok by lra. simpl.
  assert (Ha : 0 < sqrt (e - 1)) by (apply sqrt_lt_R0; lra).
  pose proof (cosh_pos (E / 2)) as Hc.
  rewrite atan2_right by (apply Rmult_lt_0_compat; assumption).
  do 3 f_equal. unfold tanh. field. lra.
Qed.

Lemma exp_ge_pow2 (n : nat) : 2 ^ n <= exp (INR n).
Proof.
  induction n as [|n IH].
  - simpl. rewrite exp_0. lra.
  - rewrite S_INR, exp_plus.
    assert (H2 : 2 < exp 1) by (pose proof (exp_ineq1 1); lra).
    assert (Hp : 0 < 2 ^ n) by (apply pow_lt; lra).
    change (2 ^ S n) with (2 * 2 ^ n). nra.
Qed.

Lemma cosh_le_exp (u : R) : cosh u <= exp (Rabs u).
Proof.
  unfold cosh. pose proof (exp_pos u). pose proof (exp_pos (- u)).
  assert (Hmono : forall a b, a <= b -> exp a <= exp b).
  { intros a b [H1 | ->]; [left; apply exp_increasing; exact H1 | lra]. }
  pose proof (Rle_abs u) as H1. pose proof (Rle_abs (- u)) as H2.
  rewrite Rabs_Ropp in H2.
  pose proof (Hmono _ _ H1). pose proof (Hmono _ _ H2). lra.
Qed.

Lemma tanh_opp (u : R) : tanh (- u) = - tanh u.
Proof.
  unfold tanh, sinh, cosh. rewrite Ropp_involutive.
  pose proof (exp_pos u). pose proof (exp_pos (- u)). field. lra.
Qed.

(** [1 - tanh u] is at least [exp (- 2 u)] on the right of 0 *)
Lemma one_minus_tanh (u : R) : 0 <= u -> exp (- (2 * u)) <= 1 - tanh u.
Proof.
  intros Hu. unfold tanh, sinh, cosh.
  pose proof (exp_pos u) as Ha. pose proof (exp_pos (- u)) as Hb.
  assert (Hab : exp u * exp (- u) = 1).
  { rewrite <- exp_plus. replace (u + - u) with 0 by ring. apply exp_0. }
  assert (H2 : exp (- (2 * u)) = exp (- u) * exp (- u)).
  { rewrite <- exp_plus. f_equal. ring. }
  assert (Hge : exp (- u) <= exp u).
  { destruct Hu as [Hu | <-].
    - left. apply exp_increasing. lra.
    - rewrite Ropp_0. lra. }
  rewrite H2.
  replace (1 - (exp u - exp (- u)) / 2 / ((exp u + exp (- u)) / 2))
    with (2 * exp (- u) / (exp u + exp (- u))) by (field; lra).
  apply Rmult_le_reg_r with (exp u + exp (- u)); [lra|].
  unfold Rdiv. rewrite (Rmult_assoc (2 * exp (- u))), Rinv_l by lra.
  nra.
Qed.

(** the arc tangent grows by at least its slope at the right end *)
Lemma atan_gap (a b : R) :
  0 <= a -> a <= b -> (b - a) / (1 + b ^ 2) <= atan b - atan a.
Proof.
  intros Ha [Hab | <-].
  - destruct (MVT_cor2 atan (fun x => / (1 + x ^ 2)) a b Hab) as (c & Hc & Hac).
    { intros x _. apply derivable_pt_lim_atan. }
    rewrite Hc. unfold Rdiv. rewrite (Rmult_comm (b - a)).
    apply Rmult_le_compat_r; [lra|].
    apply Rinv_le_contravar; nra.
  - unfold Rdiv. lra.
Qed.

Lemma ejection_margin_le_exp (e E : R) :
  1 < e -> Ranged.ejection_margin e E <= exp (- Rabs E).
Proof.
  intros He. unfold Ranged.ejection_margin.
  pose proof (exp_pos (- Rabs E)) as Hx.
  assert (Hs : sqrt (e ^ 2 - 1) / e <= 1).
  { apply Rmult_le_reg_r with e; [lra|].
    unfold Rdiv. rewrite Rmult_assoc, Rinv_l, Rmult_1_r, Rmult_1_l by lra.
    rewrite <- (sqrt_pow2 e) at 2 by lra.
    apply sqrt_le_1_alt. lra. }
  assert (H0 : 0 <= sqrt (e ^ 2 - 1) / e).
  { apply Rmult_le_pos; [apply sqrt_pos | left; apply Rinv_0_lt_compat; lra]. }
  nra.
Qed.

(** within the margin of the claim nothing overflows *)
Lemma margin_in_range (e E : R) :
  1 < e -> / 2 ^ 40 <= Ranged.ejection_margin e E ->
  cosh (E / 2) < 2 ^ 1024.
Proof.
  intros He Hm.
  pose proof (ejection_margin_le_exp E He) as Hle.
  assert (Hexp : exp (Rabs E) <= 2 ^ 40).
  { assert (Hp : 0 < 2 ^ 40) by (apply pow_lt; lra).
    pose proof (exp_pos (Rabs E)) as Hq.
    assert (Hinv : exp (- Rabs E) = / exp (Rabs E)) by apply exp_Ropp.
    rewrite Hinv in Hle.
    assert (H1 : / 2 ^ 40 <= / exp (Rabs E)) by lra.
    destruct (Rle_dec (exp (Rabs E)) (2 ^ 40)) as [H | H]; [exact H|].
    exfalso. apply Rnot_le_lt in H.
    pose proof (Rinv_lt_contravar _ _ (Rmult_lt_0_compat _ _ Hp Hq) H). lra. }
  apply Rle_lt_trans with (exp (Rabs (E / 2))); [apply cosh_le_exp|].
  apply Rle_lt_trans with (exp (Rabs E)).
  - assert (Habs : Rabs (E / 2) <= Rabs E).
    { unfold Rdiv. rewrite Rabs_mult, (Rabs_pos_eq (/ 2)) by lra.
      pose proof (Rabs_pos E). lra. }
    destruct Habs as [H | ->]; [left; apply exp_increasing; exact H | lra].
  - apply Rle_lt_trans with (2 ^ 40); [exact Hexp|].
    apply Rlt_pow; [lra | lia].
Qed.

Lemma ranged_hyperbolic_true_anomaly (e E : R) :
  1 < e -> cosh (E / 2) < 2 ^ 1024 ->
  Ranged.true_anomaly_at_eccentric_anomaly (mkGeometry e) E
  = Ok (2 * atan (sqrt (e + 1) / sqrt (e - 1) * tanh (E / 2))).
Proof.
  intros He Hc. unfold Ranged.true_anomaly_at_eccentric_anomaly. simpl.
  destruct (Rlt_dec e 1); [lra|].
  destruct (Req_dec_T e 1); [lra|].
  rewrite math_sqrt_ok by lra. cbn [bind].
  unfold Ranged.math_cosh.
  destruct (Rlt_dec (cosh (E / 2)) (2 ^ 1024)); [|contradiction]. cbn [bind].
  rewrite math_sqrt_ok by lra. cbn [bind].
  unfold Ranged.math_sinh.
  pose proof (sinh_lt_cosh (E / 2)) as [H1 H2].
  destruct (Rlt_dec (Rabs (sinh (E / 2))) (2 ^ 1024)) as [_ | Hn].
  - cbn [bind].
    assert (Ha : 0 < sqrt (e - 1)) by (apply sqrt_lt_R0; lra).
    pose proof (cosh_pos (E / 2)) as Hp.
    rewrite atan2_right by (apply Rmult_lt_0_compat; assumption).
    do 3 f_equal. unfold tanh. field. lra.
  - exfalso. apply Hn. apply Rabs_def1; lra.
Qed.

(** the margin, on the right of 0 *)
Lemma ejection_margin_right (e E : R) :
  1 < e -> 0 <= E ->
  let k := sqrt (e + 1) / sqrt (e - 1) in
  0 <= atan (k * tanh (E / 2))
  /\ Ranged.ejection_margin e E
     <= 2 * atan k - 2 * atan (k * tanh (E / 2)).
Proof.
  intros He HE k.
  assert (Ha : 0 < sqrt (e - 1)) by (apply sqrt_lt_R0; lra).
  assert (Hb : 0 < sqrt (e + 1)) by (apply sqrt_lt_R0; lra).
  assert (Hk : 0 < k) by (unfold k; apply Rdiv_lt_0_compat; assumption).
  assert (Hkk : k ^ 2 = (e + 1) / (e - 1)).
  { unfold k.
    replace ((sqrt (e + 1) / sqrt (e - 1)) ^ 2)
      with ((sqrt (e + 1) * sqrt (e + 1)) / (sqrt (e - 1) * sqrt (e - 1)))
      by (field; lra).
    rewrite !sqrt_sqrt by lra. reflexivity. }
  pose proof (tanh_bound (E / 2)) as [_ Ht1].
  pose proof (@one_minus_tanh (E / 2)) as Hgap.
  replace (2 * (E / 2)) with E in Hgap by field.
  assert (HE2 : 0 <= E / 2) by lra. specialize (Hgap HE2).
  assert (Ht0 : 0 <= tanh (E / 2)).
  { unfold tanh. apply Rmult_le_pos.
    - rewrite <- sinh_0. destruct HE2 as [H | <-]; [|lra].
      left. apply sinh_lt. exact H.
    - left. apply Rinv_0_lt_compat. apply cosh_pos. }
  set (t := tanh (E / 2)) in *.
  assert (Hkt : 0 <= k * t) by (apply Rmult_le_pos; lra).
  split.
  - rewrite <- atan_0. destruct Hkt as [H | <-]; [|lra].
    left. apply atan_increasing. exact H.
  - assert (Hle : k * t <= k) by nra.
    pose proof (atan_gap Hkt Hle) as Hat.
    assert (Hslope : sqrt (e ^ 2 - 1) / e = 2 * k / (1 + k ^ 2)).
    { replace (e ^ 2 - 1) with ((e + 1) * (e - 1)) by ring.
      rewrite sqrt_mult by lra.
      assert (Hsum : sqrt (e - 1) * sqrt (e - 1)
                     + sqrt (e + 1) * sqrt (e + 1) = 2 * e).
      { rewrite !sqrt_sqrt by lra. ring. }
      replace (2 * k / (1 + k ^ 2))
        with (2 * (sqrt (e + 1) * sqrt (e - 1))
              / (sqrt (e - 1) * sqrt (e - 1) + sqrt (e + 1) * sqrt (e + 1)))
        by (unfold k; field; split; nra).
      rewrite Hsum. field. lra. }
    unfold Ranged.ejection_margin. rewrite Hslope.
    rewrite (Rabs_pos_eq E) by exact HE.
    assert (Hden : 0 < 1 + k ^ 2) by nra.
    assert (Hfrac : 0 < / (1 + k ^ 2)) by (apply Rinv_0_lt_compat; exact Hden).
    assert (Hstep : 2 * k / (1 + k ^ 2) * exp (- E)
                    <= 2 * ((k - k * t) / (1 + k ^ 2))).
    { unfold Rdiv.
      replace (2 * k * / (1 + k ^ 2) * exp (- E))
        with (2 * / (1 + k ^ 2) * (k * exp (- E))) by ring.
      replace (2 * ((k - k * t) * / (1 + k ^ 2)))
        with (2 * / (1 + k ^ 2) * (k * (1 - t))) by ring.
      apply Rmult_le_compat_l; [lra|].
      apply Rmult_le_compat_l; lra. }
    lra.
Qed.

(** the margin is at least the resolved margin *)
Lemma resolved_margin (e E : R) :
  1 < e ->
  / 2 ^ 40 <= sqrt (e ^ 2 - 1) / e * Ranged.ejection_margin e E ->
  / 2 ^ 40 <= Ranged.ejection_margin e E.
Proof.
  intros He Hm.
  assert (Hs : 0 <= sqrt (e ^ 2 - 1) / e <= 1).
  { split.
    - apply Rmult_le_pos; [apply sqrt_pos|].
      left. apply Rinv_0_lt_compat. lra.
    - apply Rmult_le_reg_r with e; [lra|].
      unfold Rdiv. rewrite Rmult_assoc, Rinv_l, Rmult_1_r, Rmult_1_l by lra.
      rewrite <- (sqrt_pow2 e) at 2 by lra.
      apply sqrt_le_1_alt. lra. }
  assert (H0 : 0 <= Ranged.ejection_margin e E).
  { unfold Ranged.ejection_margin. apply Rmult_le_pos; [lra|].
    left. apply exp_pos. }
  nra.
Qed.

(** C2, amended.  For an eccentricity [e] above 1 and an eccentric anomaly
    [E], [true_anomaly_at_eccentric_anomaly(E)], that is
    [2*atan2(sqrt(e+1)*sinh(E/2), sqrt(e-1)*cosh(E/2))], is in exact
    arithmetic at least [m = sqrt(e^2-1)/e * exp(-|E|)] inside the
    ejection angles [-acos(-1/e)] and [+acos(-1/e)].  Where
    [sqrt(e^2-1)/e * m] is at least [2^-40], so that doubles tell the
    two apart, [cosh] and [sinh] are within range, the call returns, and
    the result lies strictly between [-ejection_angle()] and
    [+ejection_angle()]. *)
Theorem hyperbolic_true_anomaly_within_ejection_angle :
  forall (g : OrbitGeometry) (E : R),
    let e := eccentricity g in
    1 < e ->
    / 2 ^ 40 <= sqrt (e ^ 2 - 1) / e * Ranged.ejection_margin e E ->
    exists v a : R,
      Ranged.true_anomaly_at_eccentric_anomaly g E = Ok v
      /\ v = 2 * math_atan2 (sqrt (e + 1) * sinh (E / 2))
                            (sqrt (e - 1) * cosh (E / 2))
      /\ ejection_angle g = Ok (Fin a)
      /\ a = acos (- 1 / e)
      /\ - a < v < a
      /\ Ranged.ejection_margin e E <= a - Rabs v.
Proof.
  intros [e] E e0 He Hres. subst e0.
  cbn [eccentricity] in He, Hres. cbn [eccentricity].
  pose proof (@resolved_margin e E He Hres) as Hm.
  set (k := sqrt (e + 1) / sqrt (e - 1)).
  assert (Ha : 0 < sqrt (e - 1)) by (apply sqrt_lt_R0; lra).
  pose proof (cosh_pos (E / 2)) as Hc.
  assert (Hv : 2 * math_atan2 (sqrt (e + 1) * sinh (E / 2))
                              (sqrt (e - 1) * cosh (E / 2))
               = 2 * atan (k * tanh (E / 2))).
  { rewrite atan2_right by (apply Rmult_lt_0_compat; assumption).
    do 2 f_equal. unfold k, tanh. field. lra. }
  assert (Hgap : Ranged.ejection_margin e E
                 <= 2 * atan k - Rabs (2 * atan (k * tanh (E / 2)))).
  { destruct (Rle_dec 0 E) as [HE | HE].
    - destruct (@ejection_margin_right e E He HE) as [H0 H1]. fold k in H0, H1.
      rewrite Rabs_pos_eq by lra. exact H1.
    - assert (HE' : 0 <= - E) by lra.
      destruct (@ejection_margin_right e (- E) He HE') as [H0 H1].
      fold k in H0, H1.
      replace (- E / 2) with (- (E / 2)) in H0, H1 by field.
      rewrite tanh_opp in H0, H1.
      replace (k * - tanh (E / 2)) with (- (k * tanh (E / 2))) in H0, H1
        by ring.
      rewrite atan_opp in H0, H1.
      unfold Ranged.ejection_margin in *. rewrite Rabs_Ropp in H1.
      rewrite (Rabs_left1 (2 * atan (k * tanh (E / 2)))) by lra. lra. }
  assert (Hpos : 0 < Ranged.ejection_margin e E).
  { apply Rlt_le_trans with (/ 2 ^ 40); [|exact Hm].
    apply Rinv_0_lt_compat. apply pow_lt. lra. }
  exists (2 * atan (k * tanh (E / 2))), (acos (- 1 / e)).
  split; [apply ranged_hyperbolic_true_anomaly;
          [exact He | apply (margin_in_range He Hm)]|].
  split; [symmetry; exact Hv|].
  split; [apply (ejection_angle_open (mkGeometry e)); simpl; lra|].
  split; [reflexivity|].
  rewrite <- double_atan_ejection by exact He. fold k.
  split; [|exact Hgap].
  set (v := 2 * atan (k * tanh (E / 2))) in *.
  pose proof (Rle_abs v). pose proof (Rle_abs (- v)) as Hn.
  rewrite Rabs_Ropp in Hn. lra.
Qed.

Lemma hyperbolic_true_anomaly_within_ejection_angle_witness :
  exists v a : R,
    Ranged.true_anomaly_at_eccentric_anomaly (mkGeometry 2) 1 = Ok v
    /\ v = 2 * math_atan2 (sqrt (2 + 1) * sinh (1 / 2))
                          (sqrt (2 - 1) * cosh (1 / 2))
    /\ ejection_angle (mkGeometry 2) = Ok (Fin a)
    /\ a = acos (- 1 / 2)
    /\ - a < v < a
    /\ Ranged.ejection_margin 2 1 <= a - Rabs v.
Proof.
  apply (@hyperbolic_true_anomaly_within_ejection_angle (mkGeometry 2) 1).
  - cbn [eccentricity]. lra.
  - cbn [eccentricity]. unfold Ranged.ejection_margin.
    rewrite Rabs_R1, exp_Ropp.
    replace (2 ^ 2 - 1) with 3 by ring.
    assert (H1 : 1 <= sqrt 3).
    { rewrite <- sqrt_1 at 1. apply sqrt_le_1_alt. lra. }
    pose proof exp_le_3 as H3. pose proof (exp_pos 1) as H0.
    assert (Hi : / 3 <= / exp 1) by (apply Rinv_le_contravar; lra).
    assert (Hp : / 2 ^ 40 <= / 12).
    { apply Rinv_le_contravar; [lra|].
      change (2 ^ 40) with (2 * (2 * (2 * (2 * 2 ^ 36)))).
      assert (1 <= 2 ^ 36) by (apply pow_R1_Rle; lra). lra. }
    assert (Hs : / 12 <= sqrt 3 / 2 * (sqrt 3 / 2 * / 3)) by nra.
    assert (Hm : sqrt 3 / 2 * (sqrt 3 / 2 * / 3)
                 <= sqrt 3 / 2 * (sqrt 3 / 2 * / exp 1)).
    { apply Rmult_le_compat_l; [lra|]. apply Rmult_le_compat_l; lra. }
    lra.
Defined.

(** C2 as stated fails: at eccentricity 2 the eccentric anomaly 4000 is a
    finite float, [cosh(2000)] is beyond the largest double, and the call
    raises [OverflowError]. *)
Lemma hyperbolic_true_anomaly_overflows :
  Ranged.true_anomaly_at_eccentric_anomaly (mkGeometry 2) 4000
  = Raise OverflowError.
Proof.
  unfold Ranged.true_anomaly_at_eccentric_anomaly. simpl eccentricity.
  destruct (Rlt_dec 2 1); [lra|].
  destruct (Req_dec_T 2 1); [lra|].
  rewrite math_sqrt_ok by lra. cbn [bind].
  unfold Ranged.math_cosh.
  destruct (Rlt_dec (cosh (4000 / 2)) (2 ^ 1024)) as [H | _]; [|reflexivity].
  exfalso.
  replace (4000 / 2) with (INR 2000) in H
    by (rewrite INR_IZR_INZ; simpl; lra).
  pose proof (exp_ge_pow2 2000) as Hexp.
  pose proof (exp_pos (- INR 2000)) as Hn.
  assert (Hc : exp (INR 2000) / 2 < cosh (INR 2000)) by (unfold cosh; lra).
  assert (Hp : 2 ^ 1024 <= 2 ^ 1999) by (apply Rle_pow; [lra | lia]).
  change (2 ^ 2000) with (2 * 2 ^ 1999) in Hexp. lra.
Qed.

Lemma cube_root_cubed (x : R) : 0 < x -> Rpower x (1 / 3) ^ 3 = x.
Proof.
  intros Hx.
  assert (Hz : 0 < Rpower x (1 / 3)) by (unfold Rpower; apply exp_pos).
  rewrite <- (Rpower_pow 3) by exact Hz.
  rewrite Rpower_mult.
  replace (1 / 3 * INR 3) with 1 by (simpl; field).
  apply Rpower_1; exact Hx.
Qed.

Lemma barker_root (M : R) :
  let s := sqrt (M ^ 2 + 1) in
  let z := Rpower (M + s) (1 / 3) in
  0 < M + s /\ 0 < z /\ ((z - 1 / z) ^ 3 + (z - 1 / z) * 3) / 2 = M.
Proof.
  intros s z.
  assert (Hs2 : s * s = M ^ 2 + 1) by (apply sqrt_sqrt; nra).
  assert (Hs : 0 <= s) by apply sqrt_pos.
  assert (Hpos : 0 < M + s) by nra.
  assert (Hz : 0 < z) by (unfold z, Rpower; apply exp_pos).
  assert (Hz3 : z ^ 3 = M + s) by (apply cube_root_cubed; exact Hpos).
  repeat split; try assumption.
  assert (Hinv : / (z ^ 3) = s - M).
  { rewrite Hz3. apply Rmult_eq_reg_r with (M + s); [|lra].
    rewrite Rinv_l by lra. nra. }
  replace (((z - 1 / z) ^ 3 + (z - 1 / z) * 3) / 2)
    with ((z ^ 3 - / (z ^ 3)) / 2) by (field; lra).
  rewrite Hinv, Hz3. lra.
Qed.

Lemma pow_positive (x y : R) : 0 < x -> float_pow x y = Ok (Rpower x y).
Proof.
  intros H. unfold float_pow. destruct (Rlt_dec 0 x); [reflexivity | lra].
Qed.

Lemma Rpower_ge_1 (x y : R) : 1 <= x -> 0 <= y -> 1 <= Rpower x y.
Proof.
  intros Hx Hy. unfold Rpower. rewrite <- exp_0.
  assert (Hln : 0 <= ln x).
  { rewrite <- ln_1. destruct Hx as [Hx | <-]; [|lra].
    left. apply ln_increasing; lra. }
  destruct (Rmult_le_pos _ _ Hy Hln) as [H | <-]; [|lra].
  left. apply exp_increasing. exact H.
Qed.

(** C1, amended.  At eccentricity exactly 1, for a mean anomaly [M] from
    0 to [2^500], the base [M + sqrt(M^2+1)] of the cube root is at
    least 1: nothing cancels, [z = base^(1/3)] is at least 1, and
    [eccentric_anomaly_at_mean_anomaly(M)] returns [E = z - 1/z], which
    is not negative.  In exact arithmetic
    [mean_anomaly_at_eccentric_anomaly] (Barker's equation
    [(E^3 + 3E)/2]) gives [M] back. *)
Theorem parabolic_mean_anomaly_round_trip :
  forall (newton_raphson : R -> (R -> R) -> (R -> R) -> pyresult R) (M : R),
    0 <= M <= 2 ^ 500 ->
    let base := M + sqrt (M ^ 2 + 1) in
    let z := Rpower base (1 / 3) in
    let parabola := mkGeometry 1 in
    1 <= base
    /\ 1 <= z
    /\ eccentric_anomaly_at_mean_anomaly newton_raphson parabola M
       = Ok (z - 1 / z)
    /\ 0 <= z - 1 / z
    /\ mean_anomaly_at_eccentric_anomaly parabola (z - 1 / z) = M.
Proof.
  intros nr M [HM _] base z parabola.
  destruct (barker_root M) as (Hpos & Hz & Hid). fold base z in Hpos, Hz, Hid.
  assert (Hbase : 1 <= base).
  { unfold base. assert (Hs : 1 <= sqrt (M ^ 2 + 1)).
    { rewrite <- sqrt_1 at 1. apply sqrt_le_1_alt. nra. }
    lra. }
  assert (Hz1 : 1 <= z) by (apply Rpower_ge_1; lra).
  split; [exact Hbase|]. split; [exact Hz1|]. split; [|split].
  - unfold eccentric_anomaly_at_mean_anomaly, parabola. simpl eccentricity.
    destruct (Rlt_dec 1 1); [lra|].
    destruct (Req_dec_T 1 1); [|lra].
    rewrite math_sqrt_ok by nra. cbn [bind].
    rewrite pow_positive by exact Hpos. cbn [bind].
    fold base z. rewrite truediv_ok by lra. reflexivity.
  - assert (Hinv : 1 / z <= 1).
    { unfold Rdiv. rewrite Rmult_1_l. rewrite <- Rinv_1.
      apply Rinv_le_contravar; lra. }
    lra.
  - unfold mean_anomaly_at_eccentric_anomaly, parabola. simpl eccentricity.
    destruct (Rlt_dec 1 1); [lra|].
    destruct (Req_dec_T 1 1); [exact Hid | lra].
Qed.

Lemma parabolic_mean_anomaly_round_trip_witness :
  let nr := fun (_ : R) (_ _ : R -> R) => Ok 0 in
  let base := 1 + sqrt (1 ^ 2 + 1) in
  let z := Rpower base (1 / 3) in
  let parabola := mkGeometry 1 in
  1 <= base
  /\ 1 <= z
  /\ eccentric_anomaly_at_mean_anomaly nr parabola 1 = Ok (z - 1 / z)
  /\ 0 <= z - 1 / z
  /\ mean_anomaly_at_eccentric_anomaly parabola (z - 1 / z) = 1.
Proof.
  intros nr. apply (@parabolic_mean_anomaly_round_trip nr 1).
  split; [lra|]. apply pow_R1_Rle. lra.
Defined.

Lemma flt_Fin (a b : R) : flt (Fin a) (Fin b) = true <-> a < b.
Proof.
  simpl. destruct (Rlt_dec a b); split; intros; try assumption; try reflexivity.
  - discriminate.
  - contradiction.
Qed.

Lemma flt_Fin_false (a b : R) : flt (Fin a) (Fin b) = false <-> b <= a.
Proof.
  simpl. destruct (Rlt_dec a b); split; intros;
    try discriminate; try reflexivity; lra.
Qed.

Lemma no_solution_nan (o : OrbitAngles) (d : pyfloat) :
  no_solution o d -> true_anomaly_at_distance o d = Ok NaN.
Proof.
  unfold no_solution, true_anomaly_at_distance.
  intros [H | [H | [H1 H2]]].
  - destruct (Req_dec_T _ 0); [reflexivity | contradiction].
  - destruct (Req_dec_T _ 0); [reflexivity |]. rewrite H. reflexivity.
  - destruct (Req_dec_T _ 0); [reflexivity |].
    destruct (flt d (periapsis o)); [reflexivity|].
    rewrite H1, H2. reflexivity.
Qed.

Lemma solution_branch (o : OrbitAngles) (d : pyfloat) :
  ~ no_solution o d ->
  true_anomaly_at_distance o d =
    bind (fdiv (semi_latus_rectum o) d) (fun q =>
    bind (fdiv (fsub q (Fin 1)) (Fin (eccentricity (geometry o)))) facos).
Proof.
  unfold no_solution, true_anomaly_at_distance. intros H.
  destruct (Req_dec_T _ 0) as [He|He]; [tauto|].
  destruct (flt d (periapsis o)) eqn:Hp; [tauto|].
  destruct (flt (Fin 0) (apoapsis o)) eqn:Ha; simpl.
  - destruct (flt (apoapsis o) d) eqn:Hd; [tauto | reflexivity].
  - reflexivity.
Qed.

(** What the last branch does on finite attributes. *)
Lemma solution_branch_finite (o : OrbitAngles) (p x : R) :
  let e := eccentricity (geometry o) in
  let c := (p / x - 1) / e in
  semi_latus_rectum o = Fin p ->
  ~ no_solution o (Fin x) ->
  (x = 0 -> true_anomaly_at_distance o (Fin x) = Raise ZeroDivisionError)
  /\ (x <> 0 -> -1 <= c <= 1 ->
      true_anomaly_at_distance o (Fin x) = Ok (Fin (acos c)))
  /\ (x <> 0 -> ~ (-1 <= c <= 1) ->
      true_anomaly_at_distance o (Fin x) = Raise ValueError).
Proof.
  intros e c Hp Hn.
  assert (He : e <> 0) by (intros He; apply Hn; left; exact He).
  rewrite (solution_branch Hn), Hp. fold e.
  repeat split.
  - intros ->. simpl. destruct (Req_dec_T 0 0); [reflexivity | lra].
  - intros Hx Hc. simpl.
    destruct (Req_dec_T x 0); [contradiction|]. simpl.
    destruct (Req_dec_T e 0); [contradiction|]. simpl.
    fold c. rewrite math_acos_ok by exact Hc. reflexivity.
  - intros Hx Hc. simpl.
    destruct (Req_dec_T x 0); [contradiction|]. simpl.
    destruct (Req_dec_T e 0); [contradiction|]. simpl.
    fold c. unfold math_acos.
    destruct (Rlt_dec c (-1)); [reflexivity|].
    destruct (Rlt_dec 1 c); [reflexivity|]. exfalso. apply Hc. lra.
Qed.

(** At an infinite distance (the sphere of influence of a body without an
    orbit) an open conic gives its ejection angle and a closed one [nan]. *)
Lemma true_anomaly_at_infinity (o : OrbitAngles) :
  conic o ->
  let e := eccentricity (geometry o) in
  (0 < e < 1 -> true_anomaly_at_distance o PInf = Ok NaN)
  /\ (1 <= e ->
      true_anomaly_at_distance o PInf = Ok (Fin (acos ((0 - 1) / e)))).
Proof.
  intros (p & Hp & He & Hslr & Hperi & Hclosed & Hopen) e.
  fold e in He, Hperi, Hclosed, Hopen. split.
  - intros [H0 H1]. apply no_solution_nan. right. right.
    rewrite (Hclosed H1). split; [|reflexivity].
    apply flt_Fin. apply Rdiv_lt_0_compat; lra.
  - intros H1.
    assert (Hn : ~ no_solution o PInf).
    { unfold no_solution. fold e. rewrite Hperi.
      intros [H | [H | [Ha Hb]]]; [lra | discriminate |].
      destruct (Hopen H1) as [Hinf | Hneg].
      - rewrite Hinf in Hb. discriminate.
      - rewrite Hneg in Ha. discriminate. }
    rewrite (solution_branch Hn), Hslr. fold e. simpl.
    destruct (Req_dec_T e 0); [lra|]. simpl.
    rewrite math_acos_ok; [reflexivity|].
    assert (0 < / e <= 1).
    { split; [apply Rinv_0_lt_compat; lra|].
      rewrite <- Rinv_1. apply Rinv_le_contravar; lra. }
    unfold Rdiv. lra.
Qed.

End OrbitAnglesProperties.

(** ** Gravity and constellations *)

Section BodyProperties.

Local Open Scope Q_scope.

Lemma Qeq_bool_false (x y : Q) : ~ x == y -> Qeq_bool x y = false.
Proof.
  intros H. destruct (Qeq_bool x y) eqn:E; [|reflexivity].
  apply Qeq_bool_iff in E. contradiction.
Qed.

Lemma qltb_true (x y : Q) : x < y -> qltb x y = true.
Proof.
  intros H. unfold qltb. destruct (Qle_bool y x) eqn:E; [|reflexivity].
  apply Qle_bool_iff in E. exfalso. apply (Qlt_not_le _ _ H E).
Qed.

Lemma qltb_false (x y : Q) : y <= x -> qltb x y = false.
Proof.
  intros H. unfold qltb. apply Qle_bool_iff in H. rewrite H. reflexivity.
Qed.

Lemma qdiv_ok (x y : Q) : ~ y == 0 -> qdiv x y = Ok (x / y).
Proof.
  intros H. unfold qdiv. rewrite Qeq_bool_false by exact H. reflexivity.
Qed.

Lemma Qpow_nonzero (x : Q) (n : positive) : ~ x == 0 -> ~ x ^ Zpos n == 0.
Proof.
  intros H. apply Qpower_not_0. exact H.
Qed.






Local Open Scope R_scope.



Lemma constellation_angle (size : Z) :
  (3 <= size)%Z -> 0 < PI / IZR size <= PI / 3.
Proof.
  intros H. apply IZR_le in H. pose proof PI_RGT_0 as Hpi.
  split.
  - apply Rdiv_lt_0_compat; lra.
  - unfold Rdiv. apply Rmult_le_compat_l; [lra|].
    apply Rinv_le_contravar; lra.
Qed.

Lemma constellation_radius_ok (b : CelestialBody) (range : Q) (size : Z) :
  (3 <= size)%Z ->
  constellation_radius b range size
  = Ok (Q2R (radius b) / cos (PI / IZR size),
        Q2R range / (2 * sin (PI / IZR size))).
Proof.
  intros H. unfold constellation_radius.
  destruct (size <? 3)%Z eqn:E; [apply Z.ltb_lt in E; lia|].
  pose proof (constellation_angle H) as [Ha1 Ha2].
  pose proof PI_RGT_0 as Hpi.
  assert (Hn : IZR size <> 0) by (apply IZR_le in H; lra).
  assert (Hc : 0 < cos (PI / IZR size)) by (apply cos_gt_0; lra).
  assert (Hs : 0 < sin (PI / IZR size)) by (apply sin_gt_0; lra).
  rewrite truediv_ok by exact Hn. cbn [bind].
  rewrite truediv_ok by lra. cbn [bind].
  rewrite truediv_ok by lra. cbn [bind].
  do 2 f_equal. field. lra.
Qed.

(** C5.  [constellation_radius(range, size)] raises [InvalidConstellation]
    if and only if [size < 3], and raises nothing else; for [size >= 3] it
    returns the pair [(radius/cos(pi/size), range/(2*sin(pi/size)))]. *)
Theorem constellation_radius_cases :
  forall (b : CelestialBody) (range : Q) (size : Z),
    ((size < 3)%Z <->
       constellation_radius b range size = Raise InvalidConstellation)
    /\ ((size < 3)%Z <-> raises (constellation_radius b range size))
    /\ ((3 <= size)%Z ->
        constellation_radius b range size
        = Ok (Q2R (radius b) / cos (PI / IZR size),
              Q2R range / (2 * sin (PI / IZR size)))).
Proof.
  intros b range size.
  assert (Hlt : (size < 3)%Z ->
            constellation_radius b range size = Raise InvalidConstellation).
  { intros H. unfold constellation_radius.
    apply Z.ltb_lt in H. rewrite H. reflexivity. }
  split; [|split].
  - split; [exact Hlt|].
    intros Hr. destruct (Z_lt_le_dec size 3) as [H|H]; [exact H|].
    rewrite (constellation_radius_ok b range H) in Hr. discriminate.
  - split.
    + intros H. exists InvalidConstellation. apply Hlt; exact H.
    + intros [e Hr]. destruct (Z_lt_le_dec size 3) as [H|H]; [exact H|].
      rewrite (constellation_radius_ok b range H) in Hr. discriminate.
  - apply constellation_radius_ok.
Qed.

Lemma math_ceil_spec (x : R) : x <= IZR (math_ceil x) < x + 1.
Proof.
  unfold math_ceil. rewrite opp_IZR.
  destruct (base_Int_part (- x)) as [H1 H2]. lra.
Qed.

Lemma atan_lt_PI2 (x : R) : 0 < x -> 0 < atan x < PI / 2.
Proof.
  intros H. split.
  - rewrite <- atan_0. apply atan_increasing. exact H.
  - apply atan_bound.
Qed.

(** below [2^39] the arc tangent stays [2^-40] away from [pi/2] *)
Lemma atan_below_half_pi (x : R) :
  0 < x -> x <= 2 ^ 39 -> atan x <= PI / 2 - / 2 ^ 40.
Proof.
  intros Hx Hle.
  assert (Hp : 0 < 2 ^ 39) by (apply pow_lt; lra).
  assert (Hp1 : 1 <= 2 ^ 39) by (apply pow_R1_Rle; lra).
  set (y := / 2 ^ 39).
  assert (Hy : 0 < y <= 1).
  { unfold y. split; [apply Rinv_0_lt_compat; exact Hp|].
    rewrite <- Rinv_1. apply Rinv_le_contravar; lra. }
  assert (Hyx : y <= / x).
  { unfold y. apply Rinv_le_contravar; assumption. }
  assert (Hmono : atan y <= atan (/ x)).
  { destruct (Rle_lt_or_eq_dec _ _ Hyx) as [H | H].
    - left. apply atan_increasing. exact H.
    - rewrite H. lra. }
  assert (Hgap : y / (1 + y ^ 2) <= atan y).
  { pose proof (@atan_gap 0 y (Rle_refl 0) (Rlt_le _ _ (proj1 Hy))) as H.
    rewrite atan_0 in H. replace (y - 0) with y in H by ring.
    replace (atan y - 0) with (atan y) in H by ring. exact H. }
  assert (Hhalf : y / 2 <= y / (1 + y ^ 2)).
  { unfold Rdiv. apply Rmult_le_compat_l; [lra|].
    apply Rinv_le_contravar; nra. }
  assert (Hy2 : y / 2 = / 2 ^ 40).
  { unfold y. change (2 ^ 40) with (2 * 2 ^ 39). field; lra. }
  rewrite (atan_inv x Hx) in Hmono. lra.
Qed.

(** from [2^-41] on the arc tangent is at least [2^-42] *)
Lemma atan_above_zero (x : R) : / 2 ^ 41 <= x -> / 2 ^ 42 <= atan x.
Proof.
  intros Hx.
  assert (Hp1 : 1 <= 2 ^ 41) by (apply pow_R1_Rle; lra).
  set (y := / 2 ^ 41) in *.
  assert (Hy : 0 < y <= 1).
  { unfold y. split; [apply Rinv_0_lt_compat; lra|].
    rewrite <- Rinv_1. apply Rinv_le_contravar; lra. }
  assert (Hmono : atan y <= atan x).
  { destruct (Rle_lt_or_eq_dec _ _ Hx) as [H | H].
    - left. apply atan_increasing. exact H.
    - rewrite H. lra. }
  pose proof (@atan_gap 0 y (Rle_refl 0) (Rlt_le _ _ (proj1 Hy))) as Hgap.
  rewrite atan_0 in Hgap.
  assert (Hhalf : y / 2 <= (y - 0) / (1 + y ^ 2)).
  { replace (y - 0) with y by ring.
    unfold Rdiv. apply Rmult_le_compat_l; [lra|].
    apply Rinv_le_contravar; nra. }
  assert (Hy2 : y / 2 = / 2 ^ 42).
  { unfold y. change (2 ^ 42) with (2 * 2 ^ 41). field; lra. }
  lra.
Qed.

(** C8, amended.  For a positive radius and a positive communication
    range, neither more than [2^40] times the other,
    [constellation_minimum_size(range)] returns
    [ceil(pi / atan(range/(2*radius)))]; the quotient under the ceiling
    is from [2 + 2^-40] to [2^44], so the size is from 3 to [2^44] and
    [constellation_radius] accepts it for any range. *)
Theorem constellation_minimum_size_valid :
  forall (b : CelestialBody) (communication_range : Q),
    (0 < radius b)%Q -> (0 < communication_range)%Q ->
    Q2R communication_range <= 2 ^ 40 * Q2R (radius b) ->
    Q2R (radius b) <= 2 ^ 40 * Q2R communication_range ->
    exists n : Z,
      constellation_minimum_size b communication_range = Ok n
      /\ n = math_ceil
               (PI / atan (Q2R communication_range / (2 * Q2R (radius b))))
      /\ 2 + / 2 ^ 40
         <= PI / atan (Q2R communication_range / (2 * Q2R (radius b)))
         <= 2 ^ 44
      /\ (3 <= n <= 2 ^ 44)%Z
      /\ forall range : Q, returns (constellation_radius b range n).
Proof.
  intros b range Hr Hrange Hfar Hnear.
  assert (Hr0 : ~ (radius b == 0)%Q).
  { intros E. rewrite E in Hr. discriminate. }
  assert (HrR : 0 < Q2R (radius b)).
  { replace 0 with (Q2R 0) by (unfold Q2R; simpl; lra).
    apply Qlt_Rlt. exact Hr. }
  assert (HgR : 0 < Q2R range).
  { replace 0 with (Q2R 0) by (unfold Q2R; simpl; lra).
    apply Qlt_Rlt. exact Hrange. }
  assert (Harg : Q2R (range / radius b / 2) = Q2R range / (2 * Q2R (radius b))).
  { rewrite !Q2R_div by (try exact Hr0; discriminate).
    replace (Q2R 2) with 2 by (unfold Q2R; simpl; lra).
    field. lra. }
  assert (Hpos : 0 < Q2R range / (2 * Q2R (radius b))).
  { apply Rdiv_lt_0_compat; lra. }
  assert (Hx : Q2R range / (2 * Q2R (radius b)) <= 2 ^ 39).
  { apply Rmult_le_reg_r with (2 * Q2R (radius b)); [lra|].
    unfold Rdiv. rewrite Rmult_assoc, Rinv_l, Rmult_1_r by lra.
    change (2 ^ 40) with (2 * 2 ^ 39) in Hfar. lra. }
  assert (Hx' : / 2 ^ 41 <= Q2R range / (2 * Q2R (radius b))).
  { assert (Hp : 0 < 2 ^ 40) by (apply pow_lt; lra).
    apply Rmult_le_reg_r with (2 * Q2R (radius b)); [lra|].
    unfold Rdiv. rewrite (Rmult_assoc (Q2R range)), Rinv_l, Rmult_1_r by lra.
    change (2 ^ 41) with (2 * 2 ^ 40).
    apply Rmult_le_reg_l with (2 ^ 40); [exact Hp|].
    replace (2 ^ 40 * (/ (2 * 2 ^ 40) * (2 * Q2R (radius b))))
      with (Q2R (radius b)) by (field; lra).
    exact Hnear. }
  destruct (atan_lt_PI2 Hpos) as [Ht1 Ht2].
  pose proof (atan_below_half_pi Hpos Hx) as Ht3.
  pose proof (atan_above_zero Hx') as Ht4.
  pose proof PI_bounds as Hpi.
  set (t := atan (Q2R range / (2 * Q2R (radius b)))) in *.
  assert (Hd : 0 < / 2 ^ 40 <= 1).
  { assert (1 <= 2 ^ 40) by (apply pow_R1_Rle; lra).
    split; [apply Rinv_0_lt_compat; lra|].
    rewrite <- Rinv_1. apply Rinv_le_contravar; lra. }
  set (d := / 2 ^ 40) in *.
  assert (Hq : 2 + d <= PI / t).
  { apply Rmult_le_reg_r with t; [exact Ht1|].
    unfold Rdiv. rewrite Rmult_assoc, Rinv_l, Rmult_1_r by lra. nra. }
  assert (Hq' : PI / t <= 2 ^ 44).
  { assert (Hp : 0 < 2 ^ 42) by (apply pow_lt; lra).
    apply Rmult_le_reg_r with t; [exact Ht1|].
    unfold Rdiv. rewrite Rmult_assoc, Rinv_l, Rmult_1_r by lra.
    change (2 ^ 44) with (2 * (2 * 2 ^ 42)).
    assert (H1 : 2 ^ 42 * / 2 ^ 42 = 1) by (apply Rinv_r; lra).
    assert (H2 : 2 ^ 42 * / 2 ^ 42 <= 2 ^ 42 * t)
      by (apply Rmult_le_compat_l; lra).
    lra. }
  assert (Hn : (3 <= math_ceil (PI / t) <= 2 ^ 44)%Z).
  { pose proof (math_ceil_spec (PI / t)) as [H1 H2].
    assert (H3 : 2 < IZR (math_ceil (PI / t))) by lra.
    apply lt_IZR in H3.
    assert (H4 : IZR (math_ceil (PI / t)) < IZR (2 ^ 44 + 1)).
    { rewrite plus_IZR. change (2 ^ 44)%Z with (2 ^ Z.of_nat 44)%Z.
      rewrite <- pow_IZR. lra. }
    apply lt_IZR in H4. lia. }
  exists (math_ceil (PI / t)).
  split; [|split; [reflexivity
                  | split; [split; [exact Hq | exact Hq']
                           | split; [exact Hn|]]]].
  - unfold constellation_minimum_size.
    rewrite qdiv_ok by exact Hr0. cbn [bind].
    rewrite Harg. fold t.
    rewrite truediv_ok by lra. reflexivity.
  - intros range'. eexists. apply constellation_radius_ok. lia.
Qed.

Lemma constellation_minimum_size_valid_witness :
  let b := mkBody "Kerbin" 3531600000000 600000 21600 None in
  exists n : Z,
    constellation_minimum_size b 1200000 = Ok n
    /\ n = math_ceil (PI / atan (Q2R 1200000 / (2 * Q2R (radius b))))
    /\ 2 + / 2 ^ 40
       <= PI / atan (Q2R 1200000 / (2 * Q2R (radius b)))
       <= 2 ^ 44
    /\ (3 <= n <= 2 ^ 44)%Z
    /\ forall range : Q, returns (constellation_radius b range n).
Proof.
  intros b.
  assert (H : 1 <= 2 ^ 40) by (apply pow_R1_Rle; lra).
  assert (Hg : Q2R 1200000 = 1200000) by (unfold Q2R; simpl; lra).
  assert (Hr : Q2R (radius b) = 600000) by (unfold Q2R; simpl; lra).
  apply (@constellation_minimum_size_valid b 1200000);
    [reflexivity | reflexivity | |]; rewrite Hg, Hr; nra.
Defined.

End BodyProperties.

(** ** Outcomes decided by the rounding of doubles *)

Section Binary64Properties.

Import PrimFloat.
Local Open Scope float_scope.

(** C1 as stated fails: at eccentricity 1 and mean anomaly [-2^26], in
    binary64, [M**2 + 1] is [2^52 + 1], its square root rounds to [2^26],
    the base [M + sqrt(M**2+1)] of the cube root is 0, and [1/z] raises
    [ZeroDivisionError]. *)
Lemma parabolic_solve_cancels :
  let M := - 0x1p+26 in
  M * M + 1 = 0x1.0000000000001p+52
  /\ sqrt (M * M + 1) = 0x1p+26
  /\ M + sqrt (M * M + 1) = 0
  /\ Binary64.eccentric_anomaly_at_mean_anomaly 1 M
     = Some (Raise ZeroDivisionError).
Proof. vm_compute. repeat split; reflexivity. Qed.




(** C8 as stated fails.  For a radius of 600000 and a communication range
    of [2^87], the argument of [math.atan] is beyond [2^66], the arc
    tangent is the double nearest to [pi/2], [math.pi] divided by it is
    exactly 2, and the size returned is 2, which [constellation_radius]
    refuses. *)
Lemma constellation_minimum_size_two :
  (0x1p+66 <=? 0x1p+87 / 600000 / 2) = true
  /\ Binary64.math_pi / Binary64.half_pi = 2
  /\ Binary64.constellation_minimum_size 600000 0x1p+87 = Some (Ok 2%Z)
  /\ constellation_radius
       (mkBody "Kerbin" 3531600000000 600000 21600 None)
       (inject_Z (2 ^ 87)) 2
     = Raise InvalidConstellation.
Proof. vm_compute. repeat split; reflexivity. Qed.

End Binary64Properties.

(** ** Durations as text *)

Section DurationProperties.

Local Open Scope string_scope.

(** ** Strings of digits *)

Lemma span_append (p : ascii -> bool) (a b : string) :
  all p a = true -> stops p b -> span p (a ++ b) = (a, b).
Proof.
  induction a as [|c a IH]; simpl; intros Ha Hb.
  - destruct b as [|c b]; [reflexivity|]. simpl in Hb |- *.
    rewrite Hb. reflexivity.
  - apply andb_true_iff in Ha as [Hc Ha]. rewrite Hc, (IH Ha Hb). reflexivity.
Qed.

Lemma span_all (p : ascii -> bool) (s : string) :
  all p (fst (span p s)) = true.
Proof.
  induction s as [|c s IH]; simpl; [reflexivity|].
  destruct (p c) eqn:Hc; [|reflexivity].
  destruct (span p s) as [a b]. simpl in *. rewrite Hc, IH. reflexivity.
Qed.

Lemma span_whole (p : ascii -> bool) (s : string) :
  all p s = true -> span p s = (s, "").
Proof.
  intros H. rewrite <- (span_append p s "" H I).
  f_equal. clear H. induction s; simpl; [reflexivity | f_equal; assumption].
Qed.

Lemma append_assoc (a b c : string) : (a ++ b) ++ c = a ++ (b ++ c).
Proof. induction a; simpl; [reflexivity | f_equal; assumption]. Qed.

Lemma all_append (p : ascii -> bool) (a b : string) :
  all p (a ++ b) = all p a && all p b.
Proof.
  induction a as [|c a IH]; simpl; [reflexivity|].
  rewrite IH, andb_assoc. reflexivity.
Qed.

Lemma all_replicate (p : ascii -> bool) (n : nat) (c : ascii) :
  p c = true -> all p (replicate n c) = true.
Proof.
  intros H. induction n; simpl; [reflexivity|]. rewrite H, IHn. reflexivity.
Qed.

Lemma all_digits_uint (d : Decimal.uint) :
  all is_digit (NilEmpty.string_of_uint d) = true.
Proof. induction d; simpl; try assumption; reflexivity. Qed.

Lemma digits_value_all (s : string) :
  all is_digit s = true -> exists n, digits_value s = Some n /\ (0 <= n)%Z.
Proof.
  unfold digits_value.
  induction s as [|c s IH]; simpl; intros H.
  - exists 0%Z. split; [reflexivity | lia].
  - apply andb_true_iff in H as [Hc Hs].
    destruct (IH Hs) as (n & Hn & _).
    destruct (NilEmpty.uint_of_string s) as [d|]; [|discriminate].
    assert (exists d', uint_of_char c (Some d) = Some d') as [d' Hd'].
    { unfold is_digit, code in Hc.
      destruct c as [[|] [|] [|] [|] [|] [|] [|] [|]]; simpl in Hc;
        try discriminate; simpl; eexists; reflexivity. }
    rewrite Hd'. simpl. eexists. split; [reflexivity|].
    unfold Z.of_uint. apply N2Z.is_nonneg.
Qed.

Lemma digits_value_zeros (k : nat) (s : string) :
  digits_value (replicate k "0" ++ s) = digits_value s.
Proof.
  unfold digits_value. induction k; simpl; [reflexivity|].
  rewrite <- IHk.
  destruct (NilEmpty.uint_of_string (replicate k "0" ++ s)); reflexivity.
Qed.

(** The digits of a natural number. *)
Lemma decimal_digits (n : Z) :
  (0 <= n)%Z ->
  digit_run (decimal n) /\ digits_value (decimal n) = Some n.
Proof.
  intros Hn. unfold decimal, digit_run, digits_value.
  destruct n as [|p|p]; [| |lia].
  - simpl. repeat split. discriminate.
  - simpl. pose proof (Unsigned.to_uint_nonnil p) as Hnil.
    assert (Hs : NilZero.string_of_uint (Pos.to_uint p)
                 = NilEmpty.string_of_uint (Pos.to_uint p)).
    { destruct (Pos.to_uint p); [contradiction | reflexivity..]. }
    rewrite Hs. repeat split.
    + destruct (Pos.to_uint p); [contradiction | discriminate..].
    + apply all_digits_uint.
    + rewrite NilEmpty.usu. simpl. unfold Z.of_uint.
      rewrite Unsigned.of_to. reflexivity.
Qed.

(** ** [float] on the groups of the pattern *)

Lemma py_float_run (s : string) :
  digit_run s ->
  exists n,
    digits_value s = Some n /\ (0 <= n)%Z /\ py_float s = Ok (inject_Z n).
Proof.
  intros [Hne Hall]. destruct (digits_value_all s Hall) as (n & Hn & Hpos).
  exists n. split; [exact Hn|]. split; [exact Hpos|].
  unfold py_float. rewrite (span_whole _ _ Hall). cbv beta iota.
  destruct s; [contradiction|]. rewrite Hn. reflexivity.
Qed.

Lemma py_float_fraction (a f : string) :
  digit_run a -> digit_run f ->
  exists n m,
    digits_value a = Some n /\ digits_value f = Some m
    /\ (0 <= n)%Z /\ (0 <= m)%Z
    /\ py_float (a ++ "." ++ f)
       = Ok (inject_Z n
             + inject_Z m / inject_Z (10 ^ Z.of_nat (String.length f)))%Q.
Proof.
  intros [Hane Ha] [Hfne Hf].
  destruct (digits_value_all a Ha) as (n & Hn & Hnpos).
  destruct (digits_value_all f Hf) as (m & Hm & Hmpos).
  exists n, m. repeat split; try assumption.
  unfold py_float.
  rewrite (span_append is_digit a ("." ++ f) Ha) by reflexivity.
  cbv beta iota. simpl append. cbv beta iota. rewrite Hn, Hm.
  destruct (String.length a + String.length f =? 0)%nat eqn:E; [|reflexivity].
  apply Nat.eqb_eq in E. destruct a; [contradiction | simpl in E; lia].
Qed.

(** ** The groups of the pattern are digit runs *)

Lemma digits_then_run (c : ascii) (s ds rest : string) :
  digits_then c s = Some (ds, rest) -> digit_run ds.
Proof.
  unfold digits_then. pose proof (span_all is_digit s) as Hall.
  destruct (span is_digit s) as [a b]. simpl in Hall.
  destruct a as [|x a]; [discriminate|].
  destruct b as [|c' b]; [discriminate|].
  destruct (Ascii.eqb c' c); [|discriminate].
  intros [= <- _]. split; [discriminate | exact Hall].
Qed.

Lemma unit_field_run (c : ascii) (s ds : string) :
  fst (unit_field c s) = Some ds -> digit_run ds.
Proof.
  unfold unit_field. destruct (digits_then c s) as [[a b]|] eqn:E; simpl.
  - intros [= <-]. exact (digits_then_run _ _ E).
  - discriminate.
Qed.

Lemma seconds_field_form (s x : string) :
  seconds_field s = Some x -> seconds_form x.
Proof.
  unfold seconds_field. pose proof (span_all is_digit s) as Hall.
  destruct (span is_digit s) as [a b]. simpl in Hall.
  destruct a as [|c a]; [discriminate|].
  assert (Ha : digit_run (String c a)) by (split; [discriminate | exact Hall]).
  destruct b as [|d b]; [intros [= <-]; left; exact Ha|].
  destruct (Ascii.eqb_spec d ".") as [-> | Hd].
  - pose proof (span_all is_digit b) as Hf.
    destruct (fst (span is_digit b)) as [|f0 f] eqn:E.
    + intros [= <-]. left. exact Ha.
    + intros [= <-]. right. exists (String c a), (String f0 f).
      repeat split; try discriminate; assumption.
  - assert (Hx : Some (String c a) = Some x -> seconds_form x)
      by (intros [= <-]; left; exact Ha).
    destruct d as [[|] [|] [|] [|] [|] [|] [|] [|]]; try exact Hx.
    exfalso. apply Hd. reflexivity.
Qed.

Lemma clock_field_form (s : string) :
  let hms := clock_field s in
  (forall x, fst (fst hms) = Some x -> digit_run x)
  /\ (forall x, snd (fst hms) = Some x -> digit_run x)
  /\ (forall x, snd hms = Some x -> seconds_form x)
  /\ (fst (fst hms) = None -> snd (fst hms) = None /\ snd hms = None).
Proof.
  unfold clock_field.
  destruct (digits_then ":" s) as [[hh rest]|] eqn:E;
    [|simpl; split; [|split; [|split]]; try discriminate; split; reflexivity].
  pose proof (span_all is_digit rest) as Hall.
  destruct (span is_digit rest) as [mm rest']. simpl in Hall.
  destruct mm as [|c mm];
    [simpl; split; [|split; [|split]]; try discriminate; split; reflexivity|].
  simpl. split; [|split; [|split]]; try discriminate.
  - intros x [= <-]. exact (digits_then_run _ _ E).
  - intros x [= <-]. split; [discriminate | exact Hall].
  - intros x Hx. destruct rest' as [|d r]; [discriminate|].
    destruct d as [[|] [|] [|] [|] [|] [|] [|] [|]]; try discriminate.
    exact (seconds_field_form _ Hx).
Qed.

Lemma group_value_some (x : string) :
  x <> "" -> group_value (Some x) = py_float x.
Proof. intros H. destruct x; [contradiction | reflexivity]. Qed.

Lemma group_value_run (g : option string) :
  (forall x, g = Some x -> digit_run x) ->
  exists n : Z, (0 <= n)%Z /\ group_value g = Ok (inject_Z n)
                /\ (g = None -> n = 0%Z).
Proof.
  intros H. destruct g as [x|].
  - destruct (py_float_run (H x eq_refl)) as (n & _ & Hn & Hf).
    exists n. split; [exact Hn|]. split; [|discriminate].
    rewrite group_value_some by (apply (H x eq_refl)). exact Hf.
  - exists 0%Z. repeat split. lia.
Qed.

Lemma inject_Z_nonneg (n : Z) : (0 <= n)%Z -> (0 <= inject_Z n)%Q.
Proof.
  intros H. change (inject_Z 0 <= inject_Z n)%Q. rewrite <- Zle_Qle. exact H.
Qed.

Lemma inject_Z_pos (n : Z) : (0 < n)%Z -> (0 < inject_Z n)%Q.
Proof.
  intros H. change (inject_Z 0 < inject_Z n)%Q. rewrite <- Zlt_Qlt. exact H.
Qed.

Lemma group_value_seconds (g : option string) :
  (forall x, g = Some x -> seconds_form x) ->
  exists q : Q, (0 <= q)%Q /\ group_value g = Ok q /\ (g = None -> q = 0%Q).
Proof.
  intros H. destruct g as [x|].
  - destruct (H x eq_refl) as [Hr | (a & f & -> & Ha & Hf)].
    + destruct (py_float_run Hr) as (n & _ & Hn & Hfl).
      exists (inject_Z n). split; [|split; [|discriminate]].
      * apply inject_Z_nonneg. exact Hn.
      * rewrite group_value_some by (apply Hr). exact Hfl.
    + destruct (py_float_fraction Ha Hf) as (n & m & _ & _ & Hn & Hm & Hfl).
      eexists. split; [|split; [|discriminate]].
      2:{ rewrite group_value_some; [exact Hfl|].
          destruct a; [destruct Ha as [Hne _]; contradiction | discriminate]. }
      apply Qle_trans with (inject_Z n + 0)%Q.
      * rewrite Qplus_0_r. apply inject_Z_nonneg. exact Hn.
      * apply Qplus_le_r. apply Qle_shift_div_l.
        -- apply inject_Z_pos. apply Z.pow_pos_nonneg; lia.
        -- rewrite Qmult_0_l. apply inject_Z_nonneg. exact Hm.
  - exists 0%Q. repeat split. apply Qle_refl.
Qed.

(** [str2time] on a body with an orbit: every group converts, and an
    absent group counts for zero *)
Lemma str2time_fields (b : CelestialBody) (s : string) :
  let g := regex_match s in
  exists (y d h m : Z) (sec : Q),
    (0 <= y)%Z /\ (0 <= d)%Z /\ (0 <= h)%Z /\ (0 <= m)%Z /\ (0 <= sec)%Q
    /\ group_value (g_years g) = Ok (inject_Z y)
    /\ group_value (g_days g) = Ok (inject_Z d)
    /\ group_value (g_hours g) = Ok (inject_Z h)
    /\ group_value (g_minutes g) = Ok (inject_Z m)
    /\ group_value (g_seconds g) = Ok sec
    /\ (g_years g = None -> y = 0%Z)
    /\ (g_days g = None -> d = 0%Z)
    /\ (g_hours g = None -> h = 0%Z)
    /\ (g_minutes g = None -> m = 0%Z)
    /\ (g_seconds g = None -> sec = 0%Q).
Proof.
  intros g. unfold g, regex_match.
  cbn [g_years g_days g_hours g_minutes g_seconds].
  set (sg := sign_field s).
  set (ys := unit_field "y" (snd sg)).
  set (ds := unit_field "d" (snd ys)).
  destruct (clock_field_form (snd ds)) as (Hh & Hm & Hs & _).
  destruct (group_value_run (g := fst ys)) as (y & Hy0 & Hy & Hyn);
    [intros x Hx; exact (unit_field_run _ _ Hx)|].
  destruct (group_value_run (g := fst ds)) as (d & Hd0 & Hd & Hdn);
    [intros x Hx; exact (unit_field_run _ _ Hx)|].
  destruct (group_value_run Hh) as (h & Hh0 & Hhv & Hhn).
  destruct (group_value_run Hm) as (m & Hm0 & Hmv & Hmn).
  destruct (group_value_seconds Hs) as (sec & Hs0 & Hsv & Hsn).
  exists y, d, h, m, sec. repeat split; assumption.
Qed.

Local Open Scope Q_scope.

(** C10, amended.  On a body that has an orbit, [str2time] returns a
    number for every string and never raises: every group of the pattern
    converts, a group that took no part in the match counts for 0, the
    result is the signed sum of the fields, and it is 0 when no field
    matched. *)
Theorem str2time_total :
  forall (b : CelestialBody) (o : Orbit) (s : string),
    orbit b = Some o ->
    let g := regex_match s in
    exists (y d h m : Z) (sec : Q),
      group_value (g_years g) = Ok (inject_Z y)
      /\ group_value (g_days g) = Ok (inject_Z d)
      /\ group_value (g_hours g) = Ok (inject_Z h)
      /\ group_value (g_minutes g) = Ok (inject_Z m)
      /\ group_value (g_seconds g) = Ok sec
      /\ (g_years g = None -> y = 0%Z)
      /\ (g_days g = None -> d = 0%Z)
      /\ (g_hours g = None -> h = 0%Z)
      /\ (g_minutes g = None -> m = 0%Z)
      /\ (g_seconds g = None -> sec = 0)
      /\ (let total :=
            sec + inject_Z y * period o
            + inject_Z d * rotational_period b
            + inject_Z h * 3600 + inject_Z m * 60 in
          str2time b s
          = Ok (if String.eqb (g_sign g) "-" then - total else total))
      /\ (g_years g = None -> g_days g = None -> g_hours g = None ->
          g_minutes g = None -> g_seconds g = None ->
          value_is (str2time b s) 0).
Proof.
  intros b o s Ho g.
  destruct (str2time_fields b s)
    as (y & d & h & m & sec & _ & _ & _ & _ & _
        & Hy & Hd & Hh & Hm & Hs & Hyn & Hdn & Hhn & Hmn & Hsn).
  fold g in Hy, Hd, Hh, Hm, Hs, Hyn, Hdn, Hhn, Hmn, Hsn.
  assert (Hrun : str2time b s
          = Ok (if String.eqb (g_sign g) "-"
                then - (sec + inject_Z y * period o
                        + inject_Z d * rotational_period b
                        + inject_Z h * 3600 + inject_Z m * 60)
                else sec + inject_Z y * period o
                     + inject_Z d * rotational_period b
                     + inject_Z h * 3600 + inject_Z m * 60)).
  { unfold str2time. fold g. rewrite Hy, Hd, Hh, Hm, Hs. cbn [bind].
    unfold orbit_period. rewrite Ho. reflexivity. }
  exists y, d, h, m, sec.
  split; [exact Hy|]. split; [exact Hd|]. split; [exact Hh|].
  split; [exact Hm|]. split; [exact Hs|].
  split; [exact Hyn|]. split; [exact Hdn|]. split; [exact Hhn|].
  split; [exact Hmn|]. split; [exact Hsn|]. split; [exact Hrun|].
  intros Ey Ed Eh Em Es.
  rewrite (Hyn Ey), (Hdn Ed), (Hhn Eh), (Hmn Em), (Hsn Es) in Hrun.
  eexists. split; [exact Hrun|].
  destruct (String.eqb (g_sign g) "-"); ring.
Qed.

Lemma str2time_total_witness :
  let year := mkOrbit 9203545 in
  let b := mkBody "Kerbin" 3531600000000 600000 21600 (Some year) in
  value_is (str2time b "no duration here") 0.
Proof.
  intros year b.
  destruct (@str2time_total b year "no duration here" eq_refl)
    as (y & d & h & m & sec & _ & _ & _ & _ & _ & _ & _ & _ & _ & _ & _ & H).
  apply H; reflexivity.
Defined.

(** C10 as stated fails: on a body without an orbit [str2time] reads
    [self.orbit.period] of [None] and raises [AttributeError], for the
    empty string as for any other. *)
Lemma str2time_without_an_orbit :
  let sun := mkBody "Sun" 1172332800000000000 261600000 432000 None in
  str2time sun "" = Raise AttributeError
  /\ str2time sun "+1y, 2d, 3:04:05.6" = Raise AttributeError.
Proof. split; reflexivity. Qed.

(** Split on every condition of a query, following [bind]. *)
Ltac case_conditions :=
  repeat match goal with
         | |- context [if ?c then _ else _] => destruct c; cbn [bind]
         end.

(** C9.  On a body without an orbit ([orbit is None]), [time2str] and
    [str2time] raise [AttributeError] for every argument, since both read
    [self.orbit.period]; [gravity] and the constellation queries never do. *)
Theorem time_conversions_need_an_orbit :
  forall b : CelestialBody,
    orbit b = None ->
    (forall seconds : Q, time2str b seconds = Raise AttributeError)
    /\ (forall formatted_time : string,
          str2time b formatted_time = Raise AttributeError)
    /\ (forall distance : option Q,
          gravity b distance <> Raise AttributeError)
    /\ (forall range : Q,
          constellation_minimum_size b range <> Raise AttributeError)
    /\ (forall (range : Q) (size : Z),
          constellation_radius b range size <> Raise AttributeError).
Proof.
  intros b Ho.
  split; [|split; [|split; [|split]]].
  - intros t. unfold time2str, orbit_period. rewrite Ho. reflexivity.
  - intros s.
    destruct (str2time_fields b s)
      as (y & d & h & m & sec & _ & _ & _ & _ & _
          & Hy & Hd & Hh & Hm & Hs & _).
    unfold str2time. rewrite Hy, Hd, Hh, Hm, Hs. cbn [bind].
    unfold orbit_period. rewrite Ho. reflexivity.
  - intros d. unfold gravity, qdiv.
    case_conditions; discriminate.
  - intros r. unfold constellation_minimum_size, qdiv, truediv.
    case_conditions; discriminate.
  - intros r n. unfold constellation_radius, truediv, InvalidConstellation.
    case_conditions; discriminate.
Qed.

Lemma time_conversions_need_an_orbit_witness :
  let sun := mkBody "Sun" 1172332800000000000 261600000 432000 None in
  time2str sun 0 = Raise AttributeError
  /\ str2time sun "+0y,   0d,  0:00:00.0" = Raise AttributeError.
Proof.
  intros sun.
  destruct (@time_conversions_need_an_orbit sun eq_refl) as (H1 & H2 & _).
  split; [apply H1 | apply H2].
Defined.

Local Open Scope string_scope.

(** ** The pattern on a formatted duration *)

Lemma digit_not_separator (c : ascii) :
  is_digit c = true -> is_separator c = false.
Proof.
  destruct c as [[|] [|] [|] [|] [|] [|] [|] [|]]; intros H;
    try discriminate H; reflexivity.
Qed.

Lemma digit_run_stops_separator (s tail : string) :
  digit_run s -> stops is_separator (s ++ tail).
Proof.
  intros [Hne Hall]. destruct s as [|c s]; [contradiction|].
  simpl in Hall |- *. apply andb_true_iff in Hall as [Hc _].
  apply digit_not_separator. exact Hc.
Qed.

Lemma digit_run_append (a b : string) :
  all is_digit a = true -> digit_run b -> digit_run (a ++ b).
Proof.
  intros Ha [Hne Hb]. split.
  - destruct a; [exact Hne | discriminate].
  - rewrite all_append, Ha, Hb. reflexivity.
Qed.

Lemma digits_then_literal (c : ascii) (ds rest : string) :
  is_digit c = false -> digit_run ds ->
  digits_then c (ds ++ String c rest) = Some (ds, rest).
Proof.
  intros Hc [Hne Hall]. unfold digits_then.
  rewrite (span_append is_digit ds (String c rest) Hall) by exact Hc.
  destruct ds; [contradiction|]. rewrite Ascii.eqb_refl. reflexivity.
Qed.

Lemma unit_field_literal (c : ascii) (ds sep tail : string) :
  is_digit c = false -> digit_run ds ->
  all is_separator sep = true -> stops is_separator tail ->
  unit_field c (ds ++ String c (sep ++ tail)) = (Some ds, tail).
Proof.
  intros Hc Hds Hsep Htail. unfold unit_field.
  rewrite (@digits_then_literal c ds (sep ++ tail) Hc Hds).
  rewrite (span_append is_separator sep tail Hsep Htail). reflexivity.
Qed.

Lemma seconds_field_literal (a f : string) :
  digit_run a -> digit_run f ->
  seconds_field (a ++ "." ++ f) = Some (a ++ "." ++ f).
Proof.
  intros [Hane Ha] [Hfne Hf]. unfold seconds_field.
  rewrite (span_append is_digit a ("." ++ f) Ha) by reflexivity.
  destruct a as [|c a]; [contradiction|].
  simpl append. cbv beta iota. rewrite (span_whole _ _ Hf). cbn [fst].
  destruct f; [contradiction | reflexivity].
Qed.

Lemma clock_field_literal (hs ms a f : string) :
  digit_run hs -> digit_run ms -> digit_run a -> digit_run f ->
  clock_field (hs ++ ":" ++ ms ++ ":" ++ a ++ "." ++ f)
  = (Some hs, Some ms, Some (a ++ "." ++ f)).
Proof.
  intros Hh [Hmne Hm] Ha Hf. unfold clock_field.
  change (hs ++ ":" ++ ms ++ ":" ++ a ++ "." ++ f)
    with (hs ++ String ":" (ms ++ String ":" (a ++ "." ++ f))).
  rewrite (@digits_then_literal ":" hs _ eq_refl Hh).
  rewrite (span_append is_digit ms _ Hm) by reflexivity.
  destruct ms as [|c ms]; [contradiction|].
  rewrite (seconds_field_literal Ha Hf). reflexivity.
Qed.

Lemma regex_match_formatted
  (sg : ascii) (ys ds hs ms a f : string) (k1 k2 : nat) :
  sg = "+"%char \/ sg = "-"%char ->
  digit_run ys -> digit_run ds -> digit_run hs -> digit_run ms ->
  digit_run a -> digit_run f ->
  regex_match
    (String sg (ys ++ "y," ++ (replicate k1 " " ++ ds) ++ "d,"
                   ++ (replicate k2 " " ++ hs) ++ ":" ++ ms ++ ":"
                   ++ a ++ "." ++ f))
  = mkGroups (String sg "") (Some ys) (Some ds) (Some hs) (Some ms)
             (Some (a ++ "." ++ f)).
Proof.
  intros Hsg Hy Hd Hh Hm Ha Hf. unfold regex_match.
  assert (Hsign : forall rest,
            sign_field (String sg rest) = (String sg "", rest)).
  { intros rest. destruct Hsg as [-> | ->]; reflexivity. }
  rewrite Hsign. cbn [fst snd].
  rewrite !append_assoc.
  change (ys ++ "y," ++ replicate k1 " " ++ ds ++ "d,"
             ++ replicate k2 " " ++ hs ++ ":" ++ ms ++ ":" ++ a ++ "." ++ f)
    with (ys ++ String "y" (("," ++ replicate k1 " ")
             ++ (ds ++ String "d" (("," ++ replicate k2 " ")
                   ++ (hs ++ ":" ++ ms ++ ":" ++ a ++ "." ++ f))))).
  assert (Hblank : forall k, all is_separator ("," ++ replicate k " ") = true).
  { intros k. simpl. apply all_replicate. reflexivity. }
  rewrite (@unit_field_literal "y" ys) ;
    [| reflexivity | exact Hy | apply Hblank
     | apply digit_run_stops_separator; exact Hd ].
  cbn [fst snd].
  rewrite (@unit_field_literal "d" ds) ;
    [| reflexivity | exact Hd | apply Hblank
     | apply digit_run_stops_separator; exact Hh ].
  cbn [fst snd].
  rewrite (clock_field_literal Hh Hm Ha Hf). reflexivity.
Qed.

Local Open Scope Q_scope.




(** ** [divmod] by a positive divisor *)

Lemma floor_bounds (a b : Q) :
  0 < b ->
  inject_Z (Qfloor (a / b)) * b <= a /\ a < (inject_Z (Qfloor (a / b)) + 1) * b.
Proof.
  intros Hb.
  assert (Hb0 : ~ b == 0) by (intros E; rewrite E in Hb; discriminate).
  pose proof (Qfloor_le (a / b)) as H1.
  pose proof (Qlt_floor (a / b)) as H2.
  rewrite inject_Z_plus in H2. change (inject_Z 1) with 1 in H2.
  assert (E : a / b * b == a) by (field; exact Hb0).
  split.
  - apply Qle_trans with (a / b * b); [|rewrite E; apply Qle_refl].
    apply Qmult_le_compat_r; [exact H1 | apply Qlt_le_weak; exact Hb].
  - apply Qle_lt_trans with (a / b * b); [rewrite E; apply Qle_refl|].
    apply Qmult_lt_compat_r; assumption.
Qed.

Lemma divmod_pos (a b : Q) :
  0 <= a -> 0 < b ->
  let q := Qfloor (a / b) in
  let r := a - inject_Z q * b in
  divmod a b = Ok (q, r) /\ (0 <= q)%Z /\ 0 <= r /\ r <= a.
Proof.
  intros Ha Hb q r.
  assert (Hb0 : ~ b == 0) by (intros E; rewrite E in Hb; discriminate).
  destruct (floor_bounds a Hb) as [H1 H2]. fold q in H1, H2.
  split; [unfold divmod; rewrite Qeq_bool_false by exact Hb0; reflexivity|].
  assert (Hq : (0 <= q)%Z).
  { change 0%Z with (Qfloor 0). apply Qfloor_resp_le.
    apply Qle_shift_div_l; [exact Hb|]. lra. }
  split; [exact Hq|].
  assert (Hqb : 0 <= inject_Z q * b).
  { apply Qmult_le_0_compat; [|lra].
    change 0 with (inject_Z 0). rewrite <- Zle_Qle. exact Hq. }
  unfold r. split; lra.
Qed.

(** ** Rounding *)

Lemma round_half_even_near (q : Q) :
  Qabs (inject_Z (round_half_even q) - q) <= 1 # 2.
Proof.
  unfold round_half_even.
  pose proof (Qfloor_le q) as H1. pose proof (Qlt_floor q) as H2.
  rewrite inject_Z_plus in H2. change (inject_Z 1) with 1 in H2.
  apply Qabs_Qle_condition.
  destruct (Qcompare_spec (q - inject_Z (Qfloor q)) (1 # 2)) as [E|E|E].
  - destruct (Z.even (Qfloor q));
      [|rewrite inject_Z_plus; change (inject_Z 1) with 1];
      split; lra.
  - split; lra.
  - rewrite inject_Z_plus; change (inject_Z 1) with 1. split; lra.
Qed.

Lemma round_half_even_whole (q : Q) (k : Z) :
  q == inject_Z k -> round_half_even q = k.
Proof.
  intros E. unfold round_half_even.
  assert (Hf : Qfloor q = k) by (rewrite E; apply Qfloor_Z).
  rewrite Hf.
  destruct (Qcompare_spec (q - inject_Z k) (1 # 2)) as [H|H|H];
    [exfalso; lra | reflexivity | exfalso; lra].
Qed.

(** ** What the conversions of [time2str] print *)

Local Open Scope string_scope.

Lemma fmt_5g_small (y : Z) :
  (0 <= y < 100000)%Z -> fmt_5g y = decimal y.
Proof.
  intros [H0 H1]. unfold fmt_5g.
  rewrite Z.abs_eq by exact H0.
  destruct (Z.ltb_spec y 0); [lia|].
  destruct (Z.ltb_spec y 100000); [reflexivity | lia].
Qed.

Lemma pad_zero_digit (width : nat) (c : ascii) (s : string) :
  is_digit c = true ->
  pad_zero width (String c s)
  = replicate (width - String.length (String c s)) "0" ++ String c s.
Proof.
  destruct c as [[|] [|] [|] [|] [|] [|] [|] [|]]; intros H;
    try discriminate H; reflexivity.
Qed.

Lemma pad_zero_run (width : nat) (s tail : string) :
  digit_run s ->
  pad_zero width (s ++ tail)
  = replicate (width - String.length (s ++ tail)) "0" ++ s ++ tail.
Proof.
  intros [Hne Hall]. destruct s as [|c s]; [contradiction|].
  simpl in Hall. apply andb_true_iff in Hall as [Hc _].
  apply (@pad_zero_digit width c (s ++ tail) Hc).
Qed.

Lemma decimal_one_digit (n : Z) :
  (0 <= n < 10)%Z -> String.length (decimal n) = 1%nat.
Proof.
  intros H. rewrite <- (Z2Nat.id n) by lia.
  assert (Hk : (Z.to_nat n < 10)%nat) by lia.
  revert Hk. generalize (Z.to_nat n). intros k Hk.
  do 10 (destruct k as [|k]; [reflexivity|]). lia.
Qed.

(** A zero-padded natural number reads back as itself. *)
Lemma group_value_padded (k : nat) (n : Z) :
  (0 <= n)%Z ->
  digit_run (replicate k "0" ++ decimal n)
  /\ group_value (Some (replicate k "0" ++ decimal n)) = Ok (inject_Z n).
Proof.
  intros Hn. destruct (decimal_digits Hn) as [Hrun Hval].
  assert (Hpad : digit_run (replicate k "0" ++ decimal n)).
  { apply digit_run_append; [apply all_replicate; reflexivity | exact Hrun]. }
  split; [exact Hpad|].
  destruct (py_float_run Hpad) as (v & Hv & _ & Hf).
  rewrite digits_value_zeros, Hval in Hv. injection Hv as <-.
  rewrite group_value_some by (apply Hpad). exact Hf.
Qed.

Lemma group_value_decimal (n : Z) :
  (0 <= n)%Z ->
  digit_run (decimal n) /\ group_value (Some (decimal n)) = Ok (inject_Z n).
Proof. intros Hn. exact (@group_value_padded 0 n Hn). Qed.

(** The seconds, printed with one decimal, read back as the tenths. *)
Lemma seconds_read_back (x : Q) :
  (0 <= x)%Q ->
  let t := round_half_even (Qabs x * 10) in
  exists a f : string,
    fmt_04_1f x = a ++ "." ++ f /\ digit_run a /\ digit_run f
    /\ group_value (Some (a ++ "." ++ f))
       = Ok (inject_Z (t / 10)
             + inject_Z (t mod 10) / inject_Z (10 ^ 1))%Q.
Proof.
  intros Hx t.
  assert (Ht : (0 <= t)%Z).
  { unfold t. pose proof (round_half_even_near (Qabs x * 10)) as H.
    apply Qabs_Qle_condition in H. destruct H as [Hlo _].
    pose proof (Qabs_nonneg x) as Hax.
    assert (Hlt : (-1 < inject_Z (round_half_even (Qabs x * 10)))%Q) by lra.
    change (-1)%Q with (inject_Z (-1)) in Hlt. rewrite <- Zlt_Qlt in Hlt. lia. }
  assert (Hip : (0 <= t / 10)%Z) by (apply Z.div_pos; lia).
  assert (Hfd : (0 <= t mod 10 < 10)%Z) by (apply Z.mod_pos_bound; lia).
  destruct (decimal_digits Hip) as [Hiprun _].
  destruct (decimal_digits (proj1 Hfd)) as [Hfrun Hfval].
  set (body := decimal (t / 10) ++ "." ++ decimal (t mod 10)).
  set (k := (4 - String.length body)%nat).
  exists (replicate k "0" ++ decimal (t / 10)), (decimal (t mod 10)).
  destruct (@group_value_padded k (t / 10) Hip) as [Harun _].
  assert (Hfmt : fmt_04_1f x
                 = (replicate k "0" ++ decimal (t / 10))
                     ++ "." ++ decimal (t mod 10)).
  { unfold fmt_04_1f. fold t. rewrite qltb_false by exact Hx. fold body.
    unfold body at 1. rewrite (@pad_zero_run 4 (decimal (t / 10)) _ Hiprun).
    fold body. fold k. unfold body. rewrite append_assoc. reflexivity. }
  split; [exact Hfmt|]. split; [exact Harun|]. split; [exact Hfrun|].
  destruct (py_float_fraction Harun Hfrun) as (n & m & Hn & Hm & _ & _ & Hf).
  rewrite digits_value_zeros in Hn.
  rewrite (proj2 (decimal_digits Hip)) in Hn. injection Hn as <-.
  rewrite Hfval in Hm. injection Hm as <-.
  rewrite (decimal_one_digit Hfd) in Hf.
  rewrite group_value_some; [exact Hf|].
  destruct (replicate k "0" ++ decimal (t / 10)) eqn:E; [|discriminate].
  destruct Harun as [Hne _]. contradiction.
Qed.

Lemma fmt_02u_nonneg (m : Z) :
  (0 <= m)%Z ->
  exists k : nat, fmt_02u m = replicate k "0" ++ decimal m.
Proof.
  intros Hm. destruct (decimal_digits Hm) as [[Hne Hall] _].
  unfold fmt_02u. destruct (decimal m) as [|c s]; [contradiction|].
  simpl in Hall. apply andb_true_iff in Hall as [Hc _].
  eexists. apply (@pad_zero_digit 2 c s Hc).
Qed.

Local Open Scope Q_scope.

Lemma tenths_value (t : Z) :
  inject_Z (t / 10) + inject_Z (t mod 10) / inject_Z (10 ^ 1)
  == inject_Z t / 10.
Proof.
  rewrite (Z.div_mod t 10) at 3 by discriminate.
  rewrite inject_Z_plus, inject_Z_mult.
  change (inject_Z (10 ^ 1)) with 10. change (inject_Z 10) with 10.
  field.
Qed.

(** What [time2str] prints and what [str2time] reads back from it. *)
Lemma round_trip_value (b : CelestialBody) (o : Orbit) (t : Q) :
  orbit b = Some o ->
  0 < period o -> 0 < rotational_period b ->
  (Qfloor (Qabs t / period o) < 100000)%Z ->
  let tenths := round_half_even (Qabs (clock_seconds b o t) * 10) in
  let total := Qabs t - clock_seconds b o t + inject_Z tenths / 10 in
  0 <= clock_seconds b o t <= Qabs t
  /\ exists (s : string) (r : Q),
       time2str b t = Ok s /\ str2time b s = Ok r
       /\ r == (if qltb t 0 then - total else total).
Proof.
  intros Ho HP HR Hy tenths total.
  pose proof (Qabs_nonneg t) as Ha.
  destruct (divmod_pos Ha HP) as (E1 & Hq1 & Hr1 & Hle1).
  destruct (divmod_pos Hr1 HR) as (E2 & Hq2 & Hr2 & Hle2).
  assert (H3600 : 0 < 3600) by reflexivity.
  assert (H60 : 0 < 60) by reflexivity.
  destruct (divmod_pos Hr2 H3600) as (E3 & Hq3 & Hr3 & Hle3).
  destruct (divmod_pos Hr3 H60) as (E4 & Hq4 & Hr4 & Hle4).
  fold (remainder (Qabs t) (period o)) in *.
  set (r1 := remainder (Qabs t) (period o)) in *.
  fold (remainder r1 (rotational_period b)) in *.
  set (r2 := remainder r1 (rotational_period b)) in *.
  fold (remainder r2 3600) in *.
  set (r3 := remainder r2 3600) in *.
  fold (remainder r3 60) in *.
  set (r4 := remainder r3 60) in *.
  change (clock_seconds b o t) with r4 in *.
  set (y := Qfloor (Qabs t / period o)) in *.
  set (d := Qfloor (r1 / rotational_period b)) in *.
  set (h := Qfloor (r2 / 3600)) in *.
  set (m := Qfloor (r3 / 60)) in *.
  split; [split; [exact Hr4 | lra]|].
  destruct (seconds_read_back Hr4) as (a & f & Hfmt & Harun & Hfrun & Hsec).
  fold tenths in Hsec.
  destruct (fmt_02u_nonneg Hq4) as (k & Hmm).
  destruct (group_value_decimal Hq1) as [Hyrun Hyval].
  destruct (group_value_decimal Hq2) as [Hdrun Hdval].
  destruct (group_value_decimal Hq3) as [Hhrun Hhval].
  destruct (@group_value_padded k m Hq4) as [Hmrun Hmval].
  set (sg := if qltb t 0 then "-"%char else "+"%char).
  set (text := String sg
         (decimal y ++ "y,"
            ++ (replicate (4 - String.length (decimal d)) " " ++ decimal d)
            ++ "d,"
            ++ (replicate (3 - String.length (decimal h)) " " ++ decimal h)
            ++ ":"
            ++ (replicate k "0" ++ decimal m) ++ ":" ++ a ++ "." ++ f)%string).
  assert (Hprint : time2str b t = Ok text).
  { unfold time2str, orbit_period. rewrite Ho. cbn [bind period].
    rewrite E1. cbn [bind fst snd]. rewrite E2. cbn [bind fst snd].
    rewrite E3. cbn [bind fst snd]. rewrite E4. cbn [bind fst snd].
    rewrite fmt_5g_small by (fold y; split; [exact Hq1 | exact Hy]).
    rewrite Hfmt, Hmm. unfold fmt_u, pad_blank, text, sg.
    destruct (qltb t 0); reflexivity. }
  assert (Hgroups : regex_match text
            = mkGroups (String sg "") (Some (decimal y)) (Some (decimal d))
                (Some (decimal h)) (Some (replicate k "0" ++ decimal m)%string)
                (Some (a ++ "." ++ f)%string)).
  { unfold text. apply regex_match_formatted; try assumption.
    unfold sg. destruct (qltb t 0); [right | left]; reflexivity. }
  eexists text, _. split; [exact Hprint|]. split.
  - unfold str2time. rewrite Hgroups.
    cbn [g_sign g_years g_days g_hours g_minutes g_seconds].
    rewrite Hyval, Hdval, Hhval, Hmval, Hsec. cbn [bind].
    unfold orbit_period. rewrite Ho. cbn [bind period]. reflexivity.
  - assert (Hsign : String.eqb (String sg "") "-" = qltb t 0).
    { unfold sg. destruct (qltb t 0); reflexivity. }
    rewrite Hsign.
    assert (Hsum : inject_Z (tenths / 10)
              + inject_Z (tenths mod 10) / inject_Z (10 ^ 1)
              + inject_Z y * period o + inject_Z d * rotational_period b
              + inject_Z h * 3600 + inject_Z m * 60 == total).
    { rewrite tenths_value. unfold total.
      assert (X1 : r1 == Qabs t - inject_Z y * period o) by reflexivity.
      assert (X2 : r2 == r1 - inject_Z d * rotational_period b) by reflexivity.
      assert (X3 : r3 == r2 - inject_Z h * 3600) by reflexivity.
      assert (X4 : r4 == r3 - inject_Z m * 60) by reflexivity.
      rewrite X4, X3, X2, X1. ring. }
    destruct (qltb t 0); rewrite Hsum; reflexivity.
Qed.

Lemma qltb_spec (x y : Q) : reflect (x < y) (qltb x y).
Proof.
  destruct (Qlt_le_dec x y) as [H|H].
  - rewrite (qltb_true H). constructor. exact H.
  - rewrite (qltb_false H). constructor. intros Hlt.
    apply (Qlt_not_le _ _ Hlt H).
Qed.

(** C7, amended.  For a body with orbital period [P > 0] and rotational
    period [R > 0] and a duration [t] of fewer than 100000 years of the
    body, [str2time(time2str(t))] returns [t] to within 0.05 s, with the
    sign of [t]; it returns [t] itself when the seconds left after the
    whole minutes are a whole number of tenths (as for [t = 0]); and the
    error is within [1e-6] of [|t|] as soon as [|t| >= 50000] s. *)
Theorem time2str_str2time_round_trip :
  forall (b : CelestialBody) (o : Orbit) (t : Q),
    orbit b = Some o ->
    0 < period o -> 0 < rotational_period b ->
    (Qfloor (Qabs t / period o) < 100000)%Z ->
    round_trip b o t.
Proof.
  intros b o t Ho HP HR Hy. unfold round_trip.
  destruct (@round_trip_value b o t Ho HP HR Hy)
    as ([Hs0 Hsle] & s & r & Hprint & Hread & Hr).
  set (sec := clock_seconds b o t) in *.
  set (tenths := round_half_even (Qabs sec * 10)) in *.
  pose proof (round_half_even_near (Qabs sec * 10)) as Hnear.
  fold tenths in Hnear. apply Qabs_Qle_condition in Hnear.
  pose proof (Qabs_pos sec Hs0) as Hsabs.
  destruct Hnear as [Hlo Hhi]. rewrite Hsabs in Hlo, Hhi.
  set (total := Qabs t - sec + inject_Z tenths / 10) in *.
  assert (Ediv : inject_Z tenths / 10 == inject_Z tenths * (1 # 10))
    by reflexivity.
  assert (Htot : - (1 # 20) <= total - Qabs t <= 1 # 20).
  { unfold total. rewrite Ediv. split; lra. }
  assert (Htot0 : 0 <= total).
  { assert (H0 : -1 < inject_Z tenths) by lra.
    change (-1) with (inject_Z (-1)) in H0. rewrite <- Zlt_Qlt in H0.
    assert (H1 : (0 <= tenths)%Z) by lia.
    rewrite Zle_Qle in H1. change (inject_Z 0) with 0 in H1.
    unfold total. rewrite Ediv. lra. }
  assert (Hnear : Qabs (r - t) <= 1 # 20).
  { apply Qabs_Qle_condition. rewrite Hr.
    destruct (qltb_spec t 0) as [Hneg | Hpos].
    - rewrite (Qabs_neg t) in Htot by lra. split; lra.
    - apply Qnot_lt_le in Hpos. rewrite (Qabs_pos t Hpos) in Htot. split; lra. }
  exists s, r.
  split; [exact Hprint|]. split; [exact Hread|]. split; [exact Hnear|].
  split; [|split; [|split]].
  - intros Hneg. rewrite Hr. rewrite (qltb_true Hneg). lra.
  - intros Hpos. rewrite Hr. rewrite (qltb_false Hpos). exact Htot0.
  - intros [k Hk].
    assert (Hround : tenths = k).
    { unfold tenths. apply round_half_even_whole. rewrite Hsabs. exact Hk. }
    assert (Hexact : total == Qabs t).
    { unfold total. rewrite Hround, <- Hk. field. }
    rewrite Hr.
    destruct (qltb_spec t 0) as [Hneg | Hpos]; rewrite Hexact.
    + rewrite (Qabs_neg t) by lra. ring.
    + apply Qnot_lt_le in Hpos. apply Qabs_pos. exact Hpos.
  - intros Hbig. apply Qle_trans with (1 # 20); [exact Hnear|]. lra.
Qed.

Lemma time2str_str2time_round_trip_witness :
  let year := mkOrbit 9203545 in
  let kerbin := mkBody "Kerbin" 3531600000000 600000 21600 (Some year) in
  let P := 9203545 in
  let R := 21600 in
  round_trip kerbin year 0
  /\ round_trip kerbin year (2.5 * P + 3 * R + 3661.5)
  /\ round_trip kerbin year (- (1.5 * P + 10)).
Proof.
  intros year kerbin P R.
  split; [|split];
    apply (@time2str_str2time_round_trip kerbin year _ eq_refl);
    reflexivity.
Defined.

(** C7 as stated fails: with an orbital period of 1000.25 s and a
    rotational period of 100 s, the duration [2.5*P + 3*R + 3661.5] is
    6462.125 s; it prints with the seconds rounded to [00.6] and reads back
    as 6462.1 s, off by more than a millionth of the duration. *)
Lemma round_trip_exceeds_tolerance :
  let moon := mkBody "moon" 1 1 100 (Some (mkOrbit 1000.25)) in
  let t := 2.5 * 1000.25 + 3 * 100 + 3661.5 in
  time2str moon t = Ok "+6y,   4d,  0:01:00.6"%string
  /\ exists r : Q,
       str2time moon "+6y,   4d,  0:01:00.6" = Ok r
       /\ t == 6462.125 /\ r == 6462.1
       /\ (1 # 1000000) * Qabs t < Qabs (r - t).
Proof.
  intros moon t. split; [vm_compute; reflexivity|].
  eexists. split; [vm_compute; reflexivity|].
  split; [reflexivity|]. split; reflexivity.
Qed.

End DurationProperties.

(** * Further properties *)

Import Anomaly OrbitTime BodyQueries.

(** ** Kepler's equation and its solver *)

Section KeplerProperties.

Local Open Scope R_scope.
Local Open Scope py_scope.

(** *** Kepler's equation is strictly increasing *)

Lemma increasing_of_derivative (f f' : R -> R) :
  (forall x, derivable_pt_lim f x (f' x)) ->
  (forall x, 0 < f' x) ->
  forall a b, a < b -> f a < f b.
Proof.
  intros Hd Hpos.
  set (pr := (fun x => exist _ (f' x) (Hd x)) : derivable f).
  apply (positive_derivative f pr). intros x. simpl. apply Hpos.
Qed.

Lemma cosh_ge_1 (x : R) : 1 <= cosh x.
Proof.
  unfold cosh. pose proof (exp_pos x) as Ha. pose proof (exp_pos (- x)) as Hb.
  assert (Hab : exp x * exp (- x) = 1).
  { rewrite <- exp_plus. replace (x + - x) with 0 by ring. apply exp_0. }
  assert (Hsq : 0 <= (exp x - exp (- x)) * (exp x - exp (- x)))
    by apply Rle_0_sqr.
  assert (H4 : 2 * 2 <= (exp x + exp (- x)) * (exp x + exp (- x))) by nra.
  assert (H2 : 2 <= exp x + exp (- x)) by nra.
  lra.
Qed.

Lemma kepler_elliptic_derivative (e m x : R) :
  derivable_pt_lim (fun E => E - e * sin E - m) x (1 - e * cos x).
Proof.
  replace (1 - e * cos x) with (1 - e * cos x - 0) by ring.
  apply (derivable_pt_lim_minus (fun E => E - e * sin E) (fun _ => m)).
  - apply (derivable_pt_lim_minus id (fun E => e * sin E)).
    + apply derivable_pt_lim_id.
    + apply (derivable_pt_lim_scal sin e). apply derivable_pt_lim_sin.
  - apply derivable_pt_lim_const.
Qed.

Lemma kepler_hyperbolic_derivative (e m x : R) :
  derivable_pt_lim (fun E => e * sinh E - E - m) x (e * cosh x - 1).
Proof.
  replace (e * cosh x - 1) with (e * cosh x - 1 - 0) by ring.
  apply (derivable_pt_lim_minus (fun E => e * sinh E - E) (fun _ => m)).
  - apply (derivable_pt_lim_minus (fun E => e * sinh E) id).
    + apply (derivable_pt_lim_scal sinh e). apply derivable_pt_lim_sinh.
    + apply derivable_pt_lim_id.
  - apply derivable_pt_lim_const.
Qed.

Lemma mean_anomaly_lt (g : OrbitGeometry) (E1 E2 : R) :
  - 1 < eccentricity g -> E1 < E2 ->
  mean_anomaly_at_eccentric_anomaly g E1
  < mean_anomaly_at_eccentric_anomaly g E2.
Proof.
  destruct g as [e]. intros He Hlt. simpl in He.
  unfold mean_anomaly_at_eccentric_anomaly. simpl eccentricity.
  destruct (Rlt_dec e 1) as [H1 | H1].
  - assert (H : E1 - e * sin E1 - 0 < E2 - e * sin E2 - 0); [|lra].
    apply (@increasing_of_derivative
             (fun E => E - e * sin E - 0) (fun x => 1 - e * cos x)
             (kepler_elliptic_derivative e 0)); [|exact Hlt].
    intros x. pose proof (COS_bound x) as [Hlo Hhi].
    destruct (Rle_dec 0 e); nra.
  - destruct (Req_dec_T e 1) as [-> | H2].
    + assert (Hq : 0 <= E1 * E1 + E1 * E2 + E2 * E2).
      { pose proof (Rle_0_sqr (E1 + E2)). pose proof (Rle_0_sqr E1).
        pose proof (Rle_0_sqr E2). unfold Rsqr in *. nra. }
      assert (Hc : E2 ^ 3 - E1 ^ 3
                   = (E2 - E1) * (E1 * E1 + E1 * E2 + E2 * E2)) by ring.
      assert (Hp : 0 <= (E2 - E1) * (E1 * E1 + E1 * E2 + E2 * E2))
        by (apply Rmult_le_pos; lra).
      lra.
    + assert (H : e * sinh E1 - E1 - 0 < e * sinh E2 - E2 - 0); [|lra].
      apply (@increasing_of_derivative
               (fun E => e * sinh E - E - 0) (fun x => e * cosh x - 1)
               (kepler_hyperbolic_derivative e 0)); [|exact Hlt].
      intros x. pose proof (cosh_ge_1 x). nra.
Qed.

(** X1.  For an eccentricity above [-1], on each of the three branches
    (elliptic, parabolic, hyperbolic), [mean_anomaly_at_eccentric_anomaly]
    is strictly increasing in the eccentric anomaly; so it is one to one,
    and Kepler's equation has at most one solution. *)
Theorem mean_anomaly_increasing :
  forall g : OrbitGeometry,
    - 1 < eccentricity g ->
    (forall E1 E2 : R,
       E1 < E2 ->
       mean_anomaly_at_eccentric_anomaly g E1
       < mean_anomaly_at_eccentric_anomaly g E2)
    /\ (forall E1 E2 : R,
          mean_anomaly_at_eccentric_anomaly g E1
          = mean_anomaly_at_eccentric_anomaly g E2 ->
          E1 = E2).
Proof.
  intros g He. split.
  - intros E1 E2 Hlt. apply mean_anomaly_lt; assumption.
  - intros E1 E2 Heq.
    destruct (Rtotal_order E1 E2) as [Hlt | [Hsame | Hgt]]; [|exact Hsame|].
    + pose proof (@mean_anomaly_lt g E1 E2 He Hlt). lra.
    + pose proof (@mean_anomaly_lt g E2 E1 He Hgt). lra.
Qed.

Lemma mean_anomaly_increasing_witness :
  let g := mkGeometry (1 / 2) in
  (forall E1 E2 : R,
     E1 < E2 ->
     mean_anomaly_at_eccentric_anomaly g E1
     < mean_anomaly_at_eccentric_anomaly g E2)
  /\ (forall E1 E2 : R,
        mean_anomaly_at_eccentric_anomaly g E1
        = mean_anomaly_at_eccentric_anomaly g E2 ->
        E1 = E2).
Proof.
  intros g. apply (@mean_anomaly_increasing g). simpl. lra.
Defined.

(** *** The solver: reduction modulo a turn, and the root finder *)

Lemma fmod_range (x y : R) :
  0 < y -> exists r, fmod x y = Ok r /\ 0 <= r < y.
Proof.
  intros Hy. unfold fmod. destruct (Req_dec_T y 0); [lra|].
  eexists. split; [reflexivity|].
  destruct (base_Int_part (x / y)) as [H1 H2].
  assert (Hx : x = x / y * y) by (field; lra).
  split.
  - assert (IZR (Int_part (x / y)) * y <= x / y * y)
      by (apply Rmult_le_compat_r; lra).
    lra.
  - assert ((x / y - 1) * y < IZR (Int_part (x / y)) * y)
      by (apply Rmult_lt_compat_r; lra).
    lra.
Qed.

(** X3.  On a closed orbit with eccentricity in [(-1, 1)] the solver
    reduces the mean anomaly to [m] in [[0, 2 pi)].  Below [2^-26] it
    returns [m / (1 - e)] without the root finder.  Otherwise its outcome
    is that of [newton_raphson] started at [pi] on Kepler's equation
    [f(E) = mean_anomaly_at_eccentric_anomaly(E) - m], and the [f_prime]
    it passes is the derivative of [f], positive everywhere. *)
Theorem kepler_elliptic_root_finding :
  forall (g : OrbitGeometry) (M : R),
    - 1 < eccentricity g < 1 ->
    exists m : R,
      fmod M (2 * PI) = Ok m /\ 0 <= m < 2 * PI
      /\ (m < / 2 ^ 26 ->
          forall newton_raphson,
            eccentric_anomaly_at_mean_anomaly newton_raphson g M
            = Ok (m / (1 - eccentricity g)))
      /\ (/ 2 ^ 26 <= m ->
          exists f f' : R -> R,
            (forall newton_raphson,
               eccentric_anomaly_at_mean_anomaly newton_raphson g M
               = newton_raphson PI f f')
            /\ (forall E, f E = mean_anomaly_at_eccentric_anomaly g E - m)
            /\ (forall E, derivable_pt_lim f E (f' E))
            /\ (forall E, 0 < f' E)).
Proof.
  intros [e] M He. simpl in He. simpl eccentricity.
  pose proof PI_RGT_0 as Hpi.
  destruct (@fmod_range M (2 * PI)) as (m & Hm & Hrange); [lra|].
  exists m. split; [exact Hm|]. split; [exact Hrange|].
  assert (Habs : Rabs m = m) by (apply Rabs_pos_eq; lra).
  split.
  - intros Hsmall nr. unfold eccentric_anomaly_at_mean_anomaly.
    simpl eccentricity. destruct (Rlt_dec e 1); [|lra].
    rewrite Hm. cbn [bind]. rewrite Habs.
    destruct (Rlt_dec m (/ 2 ^ 26)); [|lra].
    apply truediv_ok. lra.
  - intros Hbig.
    exists (fun E => E - e * sin E - m), (fun E => 1 - e * cos E).
    split; [|split; [|split]].
    + intros nr. unfold eccentric_anomaly_at_mean_anomaly.
      simpl eccentricity. destruct (Rlt_dec e 1); [|lra].
      rewrite Hm. cbn [bind]. rewrite Habs.
      destruct (Rlt_dec m (/ 2 ^ 26)); [lra | reflexivity].
    + intros E. unfold mean_anomaly_at_eccentric_anomaly.
      simpl eccentricity. destruct (Rlt_dec e 1); [reflexivity | lra].
    + intros E. apply kepler_elliptic_derivative.
    + intros E. pose proof (COS_bound E) as [Hlo Hhi].
      destruct (Rle_dec 0 e); nra.
Qed.

Lemma kepler_elliptic_root_finding_witness :
  let g := mkGeometry (1 / 2) in
  exists m : R,
    fmod 1 (2 * PI) = Ok m /\ 0 <= m < 2 * PI
    /\ (m < / 2 ^ 26 ->
        forall newton_raphson,
          eccentric_anomaly_at_mean_anomaly newton_raphson g 1
          = Ok (m / (1 - eccentricity g)))
    /\ (/ 2 ^ 26 <= m ->
        exists f f' : R -> R,
          (forall newton_raphson,
             eccentric_anomaly_at_mean_anomaly newton_raphson g 1
             = newton_raphson PI f f')
          /\ (forall E, f E = mean_anomaly_at_eccentric_anomaly g E - m)
          /\ (forall E, derivable_pt_lim f E (f' E))
          /\ (forall E, 0 < f' E)).
Proof.
  intros g. apply (@kepler_elliptic_root_finding g 1). simpl. lra.
Defined.

(** X4.  On a hyperbolic trajectory ([eccentricity > 1]) a mean anomaly
    below [2^-26] in absolute value is solved to [M / (e - 1)] without the
    root finder.  Otherwise the outcome is that of [newton_raphson]
    started at 1 on [f(E) = mean_anomaly_at_eccentric_anomaly(E) - M], and
    the [f_prime] it passes is the derivative of [f], positive
    everywhere. *)
Theorem kepler_hyperbolic_root_finding :
  forall (g : OrbitGeometry) (M : R),
    1 < eccentricity g ->
    (Rabs M < / 2 ^ 26 ->
     forall newton_raphson,
       eccentric_anomaly_at_mean_anomaly newton_raphson g M
       = Ok (M / (eccentricity g - 1)))
    /\ (/ 2 ^ 26 <= Rabs M ->
        exists f f' : R -> R,
          (forall newton_raphson,
             eccentric_anomaly_at_mean_anomaly newton_raphson g M
             = newton_raphson 1 f f')
          /\ (forall E, f E = mean_anomaly_at_eccentric_anomaly g E - M)
          /\ (forall E, derivable_pt_lim f E (f' E))
          /\ (forall E, 0 < f' E)).
Proof.
  intros [e] M He. simpl in He. simpl eccentricity. split.
  - intros Hsmall nr. unfold eccentric_anomaly_at_mean_anomaly.
    simpl eccentricity. destruct (Rlt_dec e 1); [lra|].
    destruct (Req_dec_T e 1); [lra|].
    destruct (Rlt_dec (Rabs M) (/ 2 ^ 26)); [|lra].
    apply truediv_ok. lra.
  - intros Hbig.
    exists (fun E => e * sinh E - E - M), (fun E => e * cosh E - 1).
    split; [|split; [|split]].
    + intros nr. unfold eccentric_anomaly_at_mean_anomaly.
      simpl eccentricity. destruct (Rlt_dec e 1); [lra|].
      destruct (Req_dec_T e 1); [lra|].
      destruct (Rlt_dec (Rabs M) (/ 2 ^ 26)); [lra | reflexivity].
    + intros E. unfold mean_anomaly_at_eccentric_anomaly.
      simpl eccentricity. destruct (Rlt_dec e 1); [lra|].
      destruct (Req_dec_T e 1); [lra | reflexivity].
    + intros E. apply kepler_hyperbolic_derivative.
    + intros E. pose proof (cosh_ge_1 E). nra.
Qed.

Lemma kepler_hyperbolic_root_finding_witness :
  let g := mkGeometry 2 in
  (Rabs 1 < / 2 ^ 26 ->
   forall newton_raphson,
     eccentric_anomaly_at_mean_anomaly newton_raphson g 1
     = Ok (1 / (eccentricity g - 1)))
  /\ (/ 2 ^ 26 <= Rabs 1 ->
      exists f f' : R -> R,
        (forall newton_raphson,
           eccentric_anomaly_at_mean_anomaly newton_raphson g 1
           = newton_raphson 1 f f')
        /\ (forall E, f E = mean_anomaly_at_eccentric_anomaly g E - 1)
        /\ (forall E, derivable_pt_lim f E (f' E))
        /\ (forall E, 0 < f' E)).
Proof.
  intros g. apply (@kepler_hyperbolic_root_finding g 1). simpl. lra.
Defined.

End KeplerProperties.

(** ** Eccentric and true anomaly *)

Section AnomalyProperties.

Local Open Scope R_scope.
Local Open Scope py_scope.

(** *** Half-angle maps *)

(** [atan2 (b sin t) (a cos t)] for a quarter turn at most on either side:
    the angle stays in the same range, keeps the end points, and inside
    has its tangent scaled by [b / a]. *)
Lemma half_angle_map (a b t : R) :
  0 < a -> 0 < b -> - (PI / 2) <= t <= PI / 2 ->
  let u := math_atan2 (b * sin t) (a * cos t) in
  - (PI / 2) <= u <= PI / 2
  /\ (t = PI / 2 -> u = PI / 2)
  /\ (t = - (PI / 2) -> u = - (PI / 2))
  /\ (- (PI / 2) < t < PI / 2 ->
      - (PI / 2) < u < PI / 2 /\ u = atan (b / a * tan t)).
Proof.
  intros Ha Hb [Hlo Hhi] u. pose proof PI_RGT_0 as Hpi.
  assert (Hup : t = PI / 2 -> u = PI / 2).
  { intros ->. unfold u, math_atan2. rewrite cos_PI2, sin_PI2.
    rewrite Rmult_0_r, Rmult_1_r.
    destruct (Rlt_dec 0 0); [lra|].
    destruct (Rlt_dec 0 b); [reflexivity | lra]. }
  assert (Hdown : t = - (PI / 2) -> u = - (PI / 2)).
  { intros ->. unfold u, math_atan2. rewrite cos_neg, sin_neg, cos_PI2, sin_PI2.
    rewrite Rmult_0_r.
    destruct (Rlt_dec 0 0); [lra|].
    destruct (Rlt_dec 0 (b * - (1))); [lra|].
    destruct (Rlt_dec (b * - (1)) 0); [reflexivity | lra]. }
  assert (Hin : - (PI / 2) < t < PI / 2 ->
      - (PI / 2) < u < PI / 2 /\ u = atan (b / a * tan t)).
  { intros Ht. assert (Hc : 0 < cos t) by (apply cos_gt_0; lra).
    assert (Hu : u = atan (b / a * tan t)).
    { unfold u, math_atan2.
      destruct (Rlt_dec 0 (a * cos t)) as [_ | Hn];
        [|exfalso; apply Hn; apply Rmult_lt_0_compat; assumption].
      f_equal. unfold tan. field. lra. }
    split; [|exact Hu]. rewrite Hu.
    pose proof (atan_bound (b / a * tan t)). lra. }
  split; [|split; [exact Hup | split; [exact Hdown | exact Hin]]].
  destruct (Req_dec_T t (PI / 2)) as [E | N1]; [rewrite (Hup E); lra|].
  destruct (Req_dec_T t (- (PI / 2))) as [E | N2]; [rewrite (Hdown E); lra|].
  destruct Hin as [H _]; lra.
Qed.

(** Two half-angle maps with inverse scalings undo each other. *)
Lemma half_angle_inverse (a b t : R) :
  0 < a -> 0 < b -> - (PI / 2) <= t <= PI / 2 ->
  let u := math_atan2 (b * sin t) (a * cos t) in
  math_atan2 (a * sin u) (b * cos u) = t.
Proof.
  intros Ha Hb Ht u. pose proof PI_RGT_0 as Hpi.
  destruct (@half_angle_map a b t Ha Hb Ht) as (Hu & Hup & Hdown & Hin).
  fold u in Hu, Hup, Hdown, Hin.
  destruct (@half_angle_map b a u Hb Ha Hu) as (_ & Hup' & Hdown' & Hin').
  destruct (Req_dec_T t (PI / 2)) as [E | N1].
  { rewrite (Hup' (Hup E)). symmetry. exact E. }
  destruct (Req_dec_T t (- (PI / 2))) as [E | N2].
  { rewrite (Hdown' (Hdown E)). symmetry. exact E. }
  assert (Ht' : - (PI / 2) < t < PI / 2) by lra.
  destruct (Hin Ht') as [Hu' Hval].
  destruct (Hin' Hu') as [_ Hback]. rewrite Hback.
  rewrite Hval at 1. rewrite tan_atan.
  replace (a / b * (b / a * tan t)) with (tan t) by (field; lra).
  apply atan_tan. lra.
Qed.

(** *** The inverse hyperbolic tangent *)

Lemma tanh_exp (u : R) : tanh u = (exp (2 * u) - 1) / (exp (2 * u) + 1).
Proof.
  unfold tanh, sinh, cosh.
  pose proof (exp_pos u) as Ha. pose proof (exp_pos (- u)) as Hb.
  assert (Hab : exp u * exp (- u) = 1).
  { rewrite <- exp_plus. replace (u + - u) with 0 by ring. apply exp_0. }
  assert (H2 : exp (2 * u) = exp u * exp u).
  { rewrite <- exp_plus. f_equal. ring. }
  rewrite H2.
  apply Rmult_eq_reg_r with ((exp u + exp (- u)) / 2 * (exp u * exp u + 1));
    [|nra].
  field_simplify; [nra | nra | lra].
Qed.

Lemma atanh_tanh (u : R) : atanh (tanh u) = u.
Proof.
  unfold atanh. rewrite tanh_exp.
  pose proof (exp_pos (2 * u)) as Hw.
  replace ((1 + (exp (2 * u) - 1) / (exp (2 * u) + 1))
           / (1 - (exp (2 * u) - 1) / (exp (2 * u) + 1)))
    with (exp (2 * u)) by (field; lra).
  rewrite ln_exp. field.
Qed.


Lemma math_atanh_ok (x : R) : - 1 < x < 1 -> math_atanh x = Ok (atanh x).
Proof.
  intros [H1 H2]. unfold math_atanh.
  destruct (Rlt_dec (-1) x); [|lra].
  destruct (Rlt_dec x 1); [reflexivity | lra].
Qed.


(** the two square roots of the hyperbolic branch are inverse *)
Lemma hyperbolic_scalings (e : R) :
  1 < e ->
  let k := sqrt (e + 1) / sqrt (e - 1) in
  0 < k /\ sqrt ((e - 1) / (e + 1)) = / k.
Proof.
  intros He k.
  assert (Ha : 0 < sqrt (e - 1)) by (apply sqrt_lt_R0; lra).
  assert (Hb : 0 < sqrt (e + 1)) by (apply sqrt_lt_R0; lra).
  split; [unfold k; apply Rdiv_lt_0_compat; assumption|].
  rewrite sqrt_div by lra. unfold k. field. lra.
Qed.

Lemma hyperbolic_eccentric_anomaly (e v : R) :
  1 < e ->
  eccentric_anomaly_at_true_anomaly (mkGeometry e) v
  = bind (math_atanh (/ (sqrt (e + 1) / sqrt (e - 1)) * tan (v / 2)))
         (fun t => Ok (2 * t)).
Proof.
  intros He. unfold eccentric_anomaly_at_true_anomaly. simpl eccentricity.
  destruct (Rlt_dec e 1); [lra|]. destruct (Req_dec_T e 1); [lra|].
  rewrite truediv_ok by lra. cbn [bind].
  assert (Hq : 0 <= (e - 1) / (e + 1)).
  { apply Rlt_le. apply Rdiv_lt_0_compat; lra. }
  rewrite math_sqrt_ok by exact Hq. cbn [bind].
  destruct (hyperbolic_scalings He) as [_ Hs]. rewrite Hs. reflexivity.
Qed.

(** *** Round trips between the eccentric and the true anomaly *)

Lemma elliptic_true_anomaly (e E : R) :
  - 1 < e < 1 ->
  true_anomaly_at_eccentric_anomaly (mkGeometry e) E
  = Ok (2 * math_atan2 (sqrt (1 + e) * sin (E / 2))
                       (sqrt (1 - e) * cos (E / 2))).
Proof.
  intros He. unfold true_anomaly_at_eccentric_anomaly. simpl eccentricity.
  destruct (Rlt_dec e 1); [|lra].
  rewrite !math_sqrt_ok by lra. reflexivity.
Qed.

Lemma elliptic_eccentric_anomaly (e v : R) :
  - 1 < e < 1 ->
  eccentric_anomaly_at_true_anomaly (mkGeometry e) v
  = Ok (2 * math_atan2 (sqrt (1 - e) * sin (v / 2))
                       (sqrt (1 + e) * cos (v / 2))).
Proof.
  intros He. unfold eccentric_anomaly_at_true_anomaly. simpl eccentricity.
  destruct (Rlt_dec e 1); [|lra].
  rewrite !math_sqrt_ok by lra. reflexivity.
Qed.

(** X5.  From the eccentric anomaly to the true anomaly and back: for an
    eccentricity above [-1] that is 1 or at least [2^-20] away from 1
    (nearer, the two half-angle maps lose the digits of the anomaly), and
    an eccentric anomaly in [[-pi, pi]] on a closed orbit, in [[-10, 10]]
    on an open trajectory (where the true anomaly stays away from its
    limit), [true_anomaly_at_eccentric_anomaly] returns a true anomaly in
    [[-pi, pi]] from which, in exact arithmetic,
    [eccentric_anomaly_at_true_anomaly] returns the eccentric anomaly it
    started from. *)
Theorem eccentric_true_eccentric :
  forall (g : OrbitGeometry) (E : R),
    - 1 < eccentricity g ->
    (eccentricity g <> 1 -> / 2 ^ 20 <= Rabs (eccentricity g - 1)) ->
    (eccentricity g < 1 -> - PI <= E <= PI) ->
    (1 <= eccentricity g -> Rabs E <= 10) ->
    exists v : R,
      true_anomaly_at_eccentric_anomaly g E = Ok v
      /\ - PI <= v <= PI
      /\ eccentric_anomaly_at_true_anomaly g v = Ok E.
Proof.
  intros [e] E He _ HE _. simpl in He, HE. pose proof PI_RGT_0 as Hpi.
  destruct (Rlt_dec e 1) as [H1 | H1].
  - (* elliptic *)
    specialize (HE H1).
    assert (Ha : 0 < sqrt (1 - e)) by (apply sqrt_lt_R0; lra).
    assert (Hb : 0 < sqrt (1 + e)) by (apply sqrt_lt_R0; lra).
    assert (Ht : - (PI / 2) <= E / 2 <= PI / 2) by lra.
    set (u := math_atan2 (sqrt (1 + e) * sin (E / 2))
                         (sqrt (1 - e) * cos (E / 2))).
    destruct (@half_angle_map (sqrt (1 - e)) (sqrt (1 + e)) (E / 2) Ha Hb Ht)
      as (Hu & _). fold u in Hu.
    exists (2 * u).
    split; [apply elliptic_true_anomaly; lra|]. split; [lra|].
    rewrite elliptic_eccentric_anomaly by lra.
    replace (2 * u / 2) with u by field.
    unfold u. rewrite (@half_angle_inverse _ _ (E / 2) Ha Hb Ht).
    f_equal. field.
  - destruct (Req_dec_T e 1) as [-> | H2].
    + (* parabolic *)
      exists (2 * atan E). pose proof (atan_bound E).
      split; [|split; [lra|]].
      * unfold true_anomaly_at_eccentric_anomaly. simpl eccentricity.
        destruct (Rlt_dec 1 1); [lra|].
        destruct (Req_dec_T 1 1); [reflexivity | lra].
      * unfold eccentric_anomaly_at_true_anomaly, math_tan. simpl eccentricity.
        destruct (Rlt_dec 1 1); [lra|].
        destruct (Req_dec_T 1 1); [|lra].
        replace (2 * atan E / 2) with (atan E) by field.
        rewrite tan_atan. reflexivity.
    + (* hyperbolic *)
      assert (H3 : 1 < e) by lra.
      destruct (hyperbolic_scalings H3) as [Hk _].
      set (k := sqrt (e + 1) / sqrt (e - 1)) in *.
      pose proof (tanh_bound (E / 2)) as Hth.
      exists (2 * atan (k * tanh (E / 2))).
      pose proof (atan_bound (k * tanh (E / 2))).
      split; [apply hyperbolic_true_anomaly; exact H3|]. split; [lra|].
      rewrite hyperbolic_eccentric_anomaly by exact H3. fold k.
      replace (2 * atan (k * tanh (E / 2)) / 2)
        with (atan (k * tanh (E / 2))) by field.
      rewrite tan_atan.
      replace (/ k * (k * tanh (E / 2))) with (tanh (E / 2)) by (field; lra).
      rewrite math_atanh_ok by exact Hth. cbn [bind].
      rewrite atanh_tanh. f_equal. field.
Qed.

Lemma eccentric_true_eccentric_witness :
  exists v : R,
    true_anomaly_at_eccentric_anomaly (mkGeometry 2) 1 = Ok v
    /\ - PI <= v <= PI
    /\ eccentric_anomaly_at_true_anomaly (mkGeometry 2) v = Ok 1.
Proof.
  apply (@eccentric_true_eccentric (mkGeometry 2) 1); cbn [eccentricity].
  - lra.
  - intros _. replace (2 - 1) with 1 by ring. rewrite Rabs_R1.
    assert (H : / 2 ^ 20 <= / 1).
    { apply Rinv_le_contravar; [lra | apply pow_R1_Rle; lra]. }
    rewrite Rinv_1 in H. exact H.
  - intros H. lra.
  - intros _. rewrite Rabs_R1. lra.
Defined.








(** *** The parabolic chain, mean anomaly to true anomaly and back *)

Lemma parabolic_solve
  (newton_raphson : R -> (R -> R) -> (R -> R) -> pyresult R)
  (g : OrbitGeometry) (M : R) :
  eccentricity g = 1 ->
  let z := Rpower (M + sqrt (M ^ 2 + 1)) (1 / 3) in
  eccentric_anomaly_at_mean_anomaly newton_raphson g M = Ok (z - 1 / z)
  /\ mean_anomaly_at_eccentric_anomaly g (z - 1 / z) = M.
Proof.
  intros He z. destruct g as [e]. simpl in He. subst e.
  destruct (barker_root M) as (Hpos & Hz & Hid). fold z in Hz, Hid.
  split.
  - unfold eccentric_anomaly_at_mean_anomaly. simpl eccentricity.
    destruct (Rlt_dec 1 1); [lra|]. destruct (Req_dec_T 1 1); [|lra].
    rewrite math_sqrt_ok by nra. cbn [bind].
    rewrite pow_positive by exact Hpos. cbn [bind]. fold z.
    rewrite truediv_ok by lra. reflexivity.
  - unfold mean_anomaly_at_eccentric_anomaly. simpl eccentricity.
    destruct (Rlt_dec 1 1); [lra|].
    destruct (Req_dec_T 1 1); [exact Hid | lra].
Qed.

Lemma parabolic_anomalies (g : OrbitGeometry) (E : R) :
  eccentricity g = 1 ->
  true_anomaly_at_eccentric_anomaly g E = Ok (2 * atan E)
  /\ eccentric_anomaly_at_true_anomaly g (2 * atan E) = Ok E.
Proof.
  destruct g as [e]. simpl. intros ->. split.
  - unfold true_anomaly_at_eccentric_anomaly. simpl eccentricity.
    destruct (Rlt_dec 1 1); [lra|].
    destruct (Req_dec_T 1 1); [reflexivity | lra].
  - unfold eccentric_anomaly_at_true_anomaly, math_tan. simpl eccentricity.
    destruct (Rlt_dec 1 1); [lra|]. destruct (Req_dec_T 1 1); [|lra].
    replace (2 * atan E / 2) with (atan E) by field.
    rewrite tan_atan. reflexivity.
Qed.

(** a mean anomaly that is not negative solves to an eccentric anomaly
    that is not negative *)
Lemma parabolic_anomaly_sign (M : R) :
  0 <= M ->
  0 <= Rpower (M + sqrt (M ^ 2 + 1)) (1 / 3)
       - 1 / Rpower (M + sqrt (M ^ 2 + 1)) (1 / 3).
Proof.
  intros HM.
  assert (Hs : 1 <= sqrt (M ^ 2 + 1)).
  { rewrite <- sqrt_1 at 1. apply sqrt_le_1_alt. nra. }
  assert (Hz : 1 <= Rpower (M + sqrt (M ^ 2 + 1)) (1 / 3))
    by (apply Rpower_ge_1; lra).
  set (z := Rpower (M + sqrt (M ^ 2 + 1)) (1 / 3)) in *.
  assert (Hinv : 1 / z <= 1).
  { unfold Rdiv. rewrite Rmult_1_l. rewrite <- Rinv_1.
    apply Rinv_le_contravar; lra. }
  lra.
Qed.

(** X8.  On a parabola ([eccentricity == 1]), for a mean anomaly from 0
    to [2^20], [true_anomaly_at_mean_anomaly] returns a true anomaly from
    0 to below [pi] and, in exact arithmetic,
    [mean_anomaly_at_true_anomaly] of it returns the mean anomaly it
    started from; the root finder is not called. *)
Theorem parabolic_mean_true_mean :
  forall (newton_raphson : R -> (R -> R) -> (R -> R) -> pyresult R)
         (g : OrbitGeometry) (M : R),
    eccentricity g = 1 ->
    0 <= M <= 2 ^ 20 ->
    exists v : R,
      true_anomaly_at_mean_anomaly newton_raphson g M = Ok v
      /\ 0 <= v < PI
      /\ mean_anomaly_at_true_anomaly g v = Ok M.
Proof.
  intros nr g M He HM.
  destruct (@parabolic_solve nr g M He) as [Hsolve Hback].
  pose proof (@parabolic_anomaly_sign M (proj1 HM)) as HE.
  set (E := Rpower (M + sqrt (M ^ 2 + 1)) (1 / 3)
            - 1 / Rpower (M + sqrt (M ^ 2 + 1)) (1 / 3)) in *.
  destruct (@parabolic_anomalies g E He) as [Htrue Hecc].
  exists (2 * atan E). pose proof (atan_bound E).
  assert (H0 : 0 <= atan E).
  { rewrite <- atan_0. destruct HE as [HE | <-]; [|lra].
    left. apply atan_increasing. exact HE. }
  split; [|split; [lra|]].
  - unfold true_anomaly_at_mean_anomaly. rewrite Hsolve. cbn [bind].
    exact Htrue.
  - unfold mean_anomaly_at_true_anomaly. rewrite Hecc. cbn [bind].
    rewrite Hback. reflexivity.
Qed.

Lemma parabolic_mean_true_mean_witness :
  let nr := fun (_ : R) (_ _ : R -> R) => Ok 0 in
  exists v : R,
    true_anomaly_at_mean_anomaly nr (mkGeometry 1) 1 = Ok v
    /\ 0 <= v < PI
    /\ mean_anomaly_at_true_anomaly (mkGeometry 1) v = Ok 1.
Proof.
  intros nr. apply (@parabolic_mean_true_mean nr (mkGeometry 1) 1).
  - reflexivity.
  - split; [lra|]. apply pow_R1_Rle. lra.
Defined.

(** *** The time axis *)

Lemma time_at_mean_anomaly_inverse (o : TimedOrbit) (t : R) :
  mean_motion o <> 0 ->
  time_at_mean_anomaly o (mean_anomaly_at_time o t) = Ok t.
Proof.
  intros Hn. unfold time_at_mean_anomaly, mean_anomaly_at_time.
  rewrite truediv_ok by exact Hn. cbn [bind]. f_equal. field. exact Hn.
Qed.

(** X9.  [time_at_mean_anomaly] and [mean_anomaly_at_time] are inverse
    of each other when the mean motion is not 0; when it is 0,
    [time_at_mean_anomaly] raises [ZeroDivisionError] for every mean
    anomaly. *)
Theorem time_and_mean_anomaly :
  forall o : TimedOrbit,
    (mean_motion o <> 0 ->
     (forall t, time_at_mean_anomaly o (mean_anomaly_at_time o t) = Ok t)
     /\ (forall M, exists t,
           time_at_mean_anomaly o M = Ok t /\ mean_anomaly_at_time o t = M))
    /\ (mean_motion o = 0 ->
        forall M, time_at_mean_anomaly o M = Raise ZeroDivisionError).
Proof.
  intros o. split.
  - intros Hn. split.
    + intros t. apply time_at_mean_anomaly_inverse. exact Hn.
    + intros M. unfold time_at_mean_anomaly, mean_anomaly_at_time.
      rewrite truediv_ok by exact Hn. cbn [bind].
      eexists. split; [reflexivity|]. field. exact Hn.
  - intros Hn M. unfold time_at_mean_anomaly, truediv. rewrite Hn.
    destruct (Req_dec_T 0 0); [reflexivity | lra].
Qed.

(** X10.  On a parabola with a mean motion other than 0, for a time at
    which the mean anomaly is from 0 to [2^20], [true_anomaly_at_time] and
    [eccentric_anomaly_at_time] return and, in exact arithmetic,
    [time_at_true_anomaly] and [time_at_eccentric_anomaly] of what they
    return give the time back. *)
Theorem parabolic_time_true_anomaly_time :
  forall (newton_raphson : R -> (R -> R) -> (R -> R) -> pyresult R)
         (o : TimedOrbit) (t : R),
    eccentricity (geometry (angles o)) = 1 ->
    mean_motion o <> 0 ->
    0 <= mean_anomaly_at_time o t <= 2 ^ 20 ->
    exists v : R,
      true_anomaly_at_time newton_raphson o t = Ok v
      /\ 0 <= v < PI
      /\ time_at_true_anomaly o v = Ok t
      /\ exists E : R,
           eccentric_anomaly_at_time newton_raphson o t = Ok E
           /\ 0 <= E
           /\ time_at_eccentric_anomaly o E = Ok t.
Proof.
  intros nr o t He Hn HM.
  pose proof (fun t => @time_at_mean_anomaly_inverse o t Hn) as Htime.
  set (g := geometry (angles o)) in *.
  set (M := mean_anomaly_at_time o t) in *.
  destruct (@parabolic_solve nr g M He) as [Hsolve Hnow].
  pose proof (@parabolic_anomaly_sign M (proj1 HM)) as HE.
  set (E := Rpower (M + sqrt (M ^ 2 + 1)) (1 / 3)
            - 1 / Rpower (M + sqrt (M ^ 2 + 1)) (1 / 3)) in *.
  destruct (@parabolic_anomalies g E He) as [Htrue Hecc].
  pose proof (atan_bound E).
  assert (H0 : 0 <= atan E).
  { rewrite <- atan_0. destruct HE as [HE | <-]; [|lra].
    left. apply atan_increasing. exact HE. }
  exists (2 * atan E). split; [|split; [lra | split]].
  - unfold true_anomaly_at_time, true_anomaly_at_mean_anomaly.
    fold g M. rewrite Hsolve. cbn [bind]. exact Htrue.
  - unfold time_at_true_anomaly, mean_anomaly_at_true_anomaly.
    fold g. rewrite Hecc. cbn [bind]. rewrite Hnow. apply Htime.
  - exists E. split; [|split; [exact HE|]].
    + unfold eccentric_anomaly_at_time. fold g M. exact Hsolve.
    + unfold time_at_eccentric_anomaly. fold g. rewrite Hnow. apply Htime.
Qed.

Lemma parabolic_time_true_anomaly_time_witness :
  let nr := fun (_ : R) (_ _ : R -> R) => Ok 0 in
  let o := mkTimed (mkAngles (mkGeometry 1) (Fin 1) PInf (Fin 2))
                   (mkPrimary PInf) 10 0 (1 / 100) in
  exists v : R,
    true_anomaly_at_time nr o 250 = Ok v
    /\ 0 <= v < PI
    /\ time_at_true_anomaly o v = Ok 250
    /\ exists E : R,
         eccentric_anomaly_at_time nr o 250 = Ok E
         /\ 0 <= E
         /\ time_at_eccentric_anomaly o E = Ok 250.
Proof.
  intros nr o. apply (@parabolic_time_true_anomaly_time nr o 250).
  - reflexivity.
  - simpl. lra.
  - unfold mean_anomaly_at_time. simpl. lra.
Defined.

End AnomalyProperties.

(** ** Distances on the conic *)

Section DistanceProperties.

Local Open Scope R_scope.

(** *** The anomaly at a distance *)

(** The conic relations of an orbit given by its numbers. *)
Ltac conic_example p :=
  exists p; simpl; repeat split; try lra;
  try (intros _); try (f_equal; lra); try (left; reflexivity).

Lemma acos_decreasing (c d : R) :
  - 1 <= c <= 1 -> - 1 <= d <= 1 -> d < c -> acos c < acos d.
Proof.
  intros Hc Hd Hlt.
  pose proof (acos_bound c) as Bc. pose proof (acos_bound d) as Bd.
  destruct (Rlt_dec (acos c) (acos d)) as [H | H]; [exact H|].
  exfalso. apply Rnot_lt_le in H. destruct H as [H | H].
  - assert (cos (acos c) < cos (acos d))
      by (apply cos_decreasing_1; lra).
    rewrite !cos_acos in * by assumption. lra.
  - assert (E : cos (acos d) = cos (acos c)) by (rewrite H; reflexivity).
    rewrite !cos_acos in E by assumption. lra.
Qed.

(** What a returned angle says about the call: no guard held, the
    distance is not 0, and the angle is the arc cosine of the quotient,
    which is within [[-1, 1]]. *)
Lemma returned_anomaly (o : OrbitAngles) (p x v : R) :
  semi_latus_rectum o = Fin p ->
  true_anomaly_at_distance o (Fin x) = Ok (Fin v) ->
  let c := (p / x - 1) / eccentricity (geometry o) in
  eccentricity (geometry o) <> 0 /\ x <> 0 /\ - 1 <= c <= 1 /\ v = acos c.
Proof.
  intros Hp Hv c.
  destruct (Classical_Prop.classic (no_solution o (Fin x))) as [Hn | Hn].
  { rewrite (no_solution_nan Hn) in Hv. discriminate. }
  assert (He : eccentricity (geometry o) <> 0).
  { intros He. apply Hn. left. exact He. }
  destruct (@solution_branch_finite o p x Hp Hn) as (Hzero & Hok & Hbad).
  fold c in Hok, Hbad.
  destruct (Req_dec_T x 0) as [Hx | Hx].
  { rewrite (Hzero Hx) in Hv. discriminate. }
  destruct (Rle_dec (- 1) c) as [H1 | H1];
    [destruct (Rle_dec c 1) as [H2 | H2]|].
  - rewrite (Hok Hx (conj H1 H2)) in Hv. injection Hv as <-.
    repeat split; assumption.
  - rewrite (Hbad Hx) in Hv by lra. discriminate.
  - rewrite (Hbad Hx) in Hv by lra. discriminate.
Qed.

(** X11.  Whenever [true_anomaly_at_distance] returns an angle [v] for a
    finite distance, on finite attributes, the angle is in [[0, pi]], the
    distance is not 0 and, in exact arithmetic, the angle solves the
    conic equation: [distance * (1 + e cos v)] is the semi-latus
    rectum. *)
Theorem true_anomaly_at_distance_on_the_conic :
  forall (o : OrbitAngles) (p x v : R),
    semi_latus_rectum o = Fin p ->
    true_anomaly_at_distance o (Fin x) = Ok (Fin v) ->
    0 <= v <= PI
    /\ x <> 0
    /\ x * (1 + eccentricity (geometry o) * cos v) = p.
Proof.
  intros o p x v Hp Hv.
  destruct (@returned_anomaly o p x v Hp Hv) as (He & Hx & Hc & ->).
  set (e := eccentricity (geometry o)) in *.
  split; [apply acos_bound|]. split; [exact Hx|].
  rewrite cos_acos by exact Hc. field. split; assumption.
Qed.

Lemma true_anomaly_at_distance_on_the_conic_witness :
  let o := mkAngles (mkGeometry (1 / 2)) (Fin 1) (Fin 3) (Fin (3 / 2)) in
  let v := acos ((3 / 2 / 2 - 1) / (1 / 2)) in
  0 <= v <= PI
  /\ 2 <> 0
  /\ 2 * (1 + eccentricity (geometry o) * cos v) = 3 / 2.
Proof.
  intros o v.
  apply (@true_anomaly_at_distance_on_the_conic o (3 / 2) 2 v).
  - reflexivity.
  - assert (Hn : ~ no_solution o (Fin 2)).
    { unfold no_solution, o. simpl.
      intros [H | [H | [_ H]]]; [lra | |];
        destruct (Rlt_dec _ _) in H; try discriminate; lra. }
    destruct (@solution_branch_finite o (3 / 2) 2 eq_refl Hn) as (_ & Hok & _).
    apply Hok; simpl; lra.
Defined.

Lemma acos_gap (c d : R) :
  - 1 <= d <= 1 -> - 1 <= c <= 1 -> d < c -> c - d <= acos d - acos c.
Proof.
  intros Hd Hc Hlt.
  pose proof (@acos_decreasing c d Hc Hd Hlt) as Hvw.
  pose proof (acos_bound c) as Bc. pose proof (acos_bound d) as Bd.
  set (v := acos c) in *. set (w := acos d) in *.
  assert (Hcos : cos v - cos w = c - d).
  { unfold v, w. rewrite !cos_acos by assumption. reflexivity. }
  rewrite form2 in Hcos.
  replace ((v - w) / 2) with (- ((w - v) / 2)) in Hcos by field.
  rewrite sin_neg in Hcos.
  assert (Hs : sin ((w - v) / 2) < (w - v) / 2) by (apply sin_lt_x; lra).
  assert (Hs0 : 0 <= sin ((w - v) / 2)) by (apply sin_ge_0; lra).
  assert (Ht0 : 0 <= sin ((v + w) / 2)) by (apply sin_ge_0; lra).
  pose proof (SIN_bound ((v + w) / 2)) as [_ Ht1].
  nra.
Qed.

(** X13.  For a positive semi-latus rectum [p], an eccentricity [e] of
    at least [2^-10] and two distances [0 < x < y] for which
    [true_anomaly_at_distance] returns the angles [v] and [w]: when the
    two quotients handed to [math.acos] are at least [2^-40] apart, which
    is [p/x/e - p/y/e], [w] exceeds [v] by at least as much; and on an
    open trajectory, when [p/y/e] is at least [2^-40], [w] is at least
    that far below the ejection angle. *)
Theorem true_anomaly_grows_with_distance :
  forall (o : OrbitAngles) (p x y v w : R),
    let e := eccentricity (geometry o) in
    semi_latus_rectum o = Fin p ->
    0 < p -> / 2 ^ 10 <= e -> 0 < x < y ->
    / 2 ^ 40 <= p / x / e - p / y / e ->
    true_anomaly_at_distance o (Fin x) = Ok (Fin v) ->
    true_anomaly_at_distance o (Fin y) = Ok (Fin w) ->
    v + (p / x / e - p / y / e) <= w
    /\ (1 <= e -> / 2 ^ 40 <= p / y / e ->
        exists a : R,
          ejection_angle (geometry o) = Ok (Fin a) /\ w + p / y / e <= a).
Proof.
  intros o p x y v w e Hp Hp0 He [Hx Hxy] Hgap Hv Hw.
  destruct (@returned_anomaly o p x v Hp Hv) as (_ & _ & Hcx & ->).
  destruct (@returned_anomaly o p y w Hp Hw) as (_ & _ & Hcy & ->).
  fold e in Hcx, Hcy |- *.
  assert (He0 : 0 < e).
  { apply Rlt_le_trans with (/ 2 ^ 10); [|exact He].
    apply Rinv_0_lt_compat. apply pow_lt. lra. }
  assert (Hpos : 0 < / 2 ^ 40) by (apply Rinv_0_lt_compat; apply pow_lt; lra).
  assert (Hdiff : (p / x - 1) / e - (p / y - 1) / e = p / x / e - p / y / e)
    by (field; lra).
  split.
  - pose proof (@acos_gap ((p / x - 1) / e) ((p / y - 1) / e) Hcy Hcx) as H.
    lra.
  - intros Hopen Hfar. exists (acos (- 1 / e)).
    split; [apply ejection_angle_open; exact Hopen|].
    assert (Hie : 0 < / e <= 1).
    { split; [apply Rinv_0_lt_compat; exact He0|].
      rewrite <- Rinv_1. apply Rinv_le_contravar; lra. }
    assert (Hlow : - 1 <= - 1 / e <= 1) by (unfold Rdiv; lra).
    assert (Hd : (p / y - 1) / e - - 1 / e = p / y / e) by (field; lra).
    pose proof (@acos_gap ((p / y - 1) / e) (- 1 / e) Hlow Hcy) as H.
    lra.
Qed.

Lemma true_anomaly_grows_with_distance_witness :
  let o := mkAngles (mkGeometry 2) (Fin 1) PInf (Fin 3) in
  let v := acos ((3 / 2 - 1) / 2) in
  let w := acos ((3 / 5 - 1) / 2) in
  v + (3 / 2 / 2 - 3 / 5 / 2) <= w
  /\ (1 <= 2 -> / 2 ^ 40 <= 3 / 5 / 2 ->
      exists a : R,
        ejection_angle (geometry o) = Ok (Fin a) /\ w + 3 / 5 / 2 <= a).
Proof.
  intros o v w.
  assert (Hn : forall x, 1 <= x -> ~ no_solution o (Fin x)).
  { intros x Hx. unfold no_solution, o. simpl.
    intros [H | [H | [_ H]]]; [lra | | discriminate].
    destruct (Rlt_dec _ _) in H; try discriminate; lra. }
  assert (H10 : / 2 ^ 10 <= / 2).
  { apply Rinv_le_contravar; [lra|].
    change (2 ^ 10) with (2 * 2 ^ 9).
    assert (1 <= 2 ^ 9) by (apply pow_R1_Rle; lra). lra. }
  assert (H40 : / 2 ^ 40 <= / 4).
  { apply Rinv_le_contravar; [lra|].
    change (2 ^ 40) with (2 * (2 * 2 ^ 38)).
    assert (1 <= 2 ^ 38) by (apply pow_R1_Rle; lra). lra. }
  apply (@true_anomaly_grows_with_distance o 3 2 5 v w).
  - reflexivity.
  - lra.
  - cbn [o geometry eccentricity]. lra.
  - lra.
  - cbn [o geometry eccentricity]. lra.
  - destruct (@solution_branch_finite o 3 2 eq_refl (Hn 2 ltac:(lra)))
      as (_ & Hok & _).
    apply Hok; simpl; lra.
  - destruct (@solution_branch_finite o 3 5 eq_refl (Hn 5 ltac:(lra)))
      as (_ & Hok & _).
    apply Hok; simpl; lra.
Defined.

(** *** Escape from a body without an orbit *)

(** X14.  Around a primary whose sphere of influence is infinite (a body
    without an orbit), [true_anomaly_at_escape] returns [nan] on a closed
    conic that is not a circle, and on an open one exactly what
    [ejection_angle] returns. *)
Theorem true_anomaly_at_escape_from_the_root :
  forall o : TimedOrbit,
    conic (angles o) ->
    sphere_of_influence (primary o) = PInf ->
    let e := eccentricity (geometry (angles o)) in
    (0 < e < 1 -> true_anomaly_at_escape o = Ok NaN)
    /\ (1 <= e ->
        true_anomaly_at_escape o = ejection_angle (geometry (angles o))).
Proof.
  intros o Hc Hsoi e. unfold true_anomaly_at_escape. rewrite Hsoi.
  destruct (true_anomaly_at_infinity Hc) as [Hclosed Hopen].
  fold e in Hclosed, Hopen. split; [exact Hclosed|].
  intros He. rewrite (Hopen He), (ejection_angle_open _ He). fold e.
  do 3 f_equal. lra.
Qed.

Lemma true_anomaly_at_escape_from_the_root_witness :
  let o := mkTimed (mkAngles (mkGeometry 2) (Fin 1) PInf (Fin 3))
                   (mkPrimary PInf) 0 0 1 in
  let e := eccentricity (geometry (angles o)) in
  (0 < e < 1 -> true_anomaly_at_escape o = Ok NaN)
  /\ (1 <= e ->
      true_anomaly_at_escape o = ejection_angle (geometry (angles o))).
Proof.
  intros o. apply (@true_anomaly_at_escape_from_the_root o).
  - unfold o. conic_example 3.
  - reflexivity.
Defined.

End DistanceProperties.

(** ** Queries on a celestial body *)

Section BodyQueriesProperties.

Local Open Scope string_scope.
Local Open Scope Q_scope.

(** *** Gravity *)

Lemma Qeq_bool_true (x y : Q) : x == y -> Qeq_bool x y = true.
Proof. intros H. apply Qeq_bool_iff. exact H. Qed.

(** X15.  For a radius and a distance whose squares and cubes are within
    the exponent range of doubles, [gravity(distance)] raises
    [ZeroDivisionError] exactly when the radius is 0 and the distance is
    negative (the shell-theorem branch then divides by [radius**3]); in
    every other case it returns. *)
Theorem gravity_outcomes :
  forall (b : CelestialBody) (d : Q),
    powers_in_range (radius b) -> powers_in_range d ->
    (gravity b (Some d) = Raise ZeroDivisionError
     <-> radius b == 0 /\ d < 0)
    /\ (returns (gravity b (Some d)) <-> ~ (radius b == 0 /\ d < 0)).
Proof.
  intros b d _ _.
  assert (Hbad : radius b == 0 -> d < 0 ->
                 gravity b (Some d) = Raise ZeroDivisionError).
  { intros Hr Hd. unfold gravity.
    assert (Hd0 : ~ d == 0) by (intros E; rewrite E in Hd; discriminate).
    rewrite Qeq_bool_false by exact Hd0.
    rewrite qltb_true by (rewrite Hr; exact Hd).
    unfold qdiv at 1.
    rewrite Qeq_bool_true; [reflexivity|].
    rewrite Hr. reflexivity. }
  assert (Hgood : ~ (radius b == 0 /\ d < 0) -> returns (gravity b (Some d))).
  { intros Hn. unfold gravity.
    destruct (Qeq_dec d 0) as [Hd0 | Hd0].
    - rewrite Qeq_bool_true by exact Hd0. eexists; reflexivity.
    - rewrite Qeq_bool_false by exact Hd0.
      destruct (Qlt_le_dec d (radius b)) as [Hlt | Hge].
      + rewrite qltb_true by exact Hlt.
        assert (Hr0 : ~ radius b == 0).
        { intros Hr. apply Hn. split; [exact Hr|]. rewrite <- Hr. exact Hlt. }
        rewrite qdiv_ok by (apply Qpow_nonzero; exact Hr0). cbn [bind].
        rewrite qdiv_ok by (apply Qpow_nonzero; exact Hd0).
        eexists; reflexivity.
      + rewrite qltb_false by exact Hge. cbn [bind].
        rewrite qdiv_ok by (apply Qpow_nonzero; exact Hd0).
        eexists; reflexivity. }
  split; split.
  - intros Hraise.
    destruct (Qeq_dec (radius b) 0) as [Hr | Hr];
      [destruct (Qlt_le_dec d 0) as [Hd | Hd]; [split; assumption|]|].
    + destruct Hgood as [v Hv]; [intros [_ H]; apply (Qlt_not_le _ _ H Hd)|].
      rewrite Hv in Hraise. discriminate.
    + destruct Hgood as [v Hv]; [intros [H _]; contradiction|].
      rewrite Hv in Hraise. discriminate.
  - intros [Hr Hd]. apply Hbad; assumption.
  - intros [v Hv] [Hr Hd]. rewrite (Hbad Hr Hd) in Hv. discriminate.
  - exact Hgood.
Qed.

Lemma gravity_outcomes_witness :
  let b := mkBody "Kerbin" 8 2 21600 None in
  (gravity b (Some (- (1))) = Raise ZeroDivisionError
   <-> radius b == 0 /\ - (1) < 0)
  /\ (returns (gravity b (Some (- (1))))
      <-> ~ (radius b == 0 /\ - (1) < 0)).
Proof.
  intros b. apply (@gravity_outcomes b (- (1))).
  - right. split; vm_compute; discriminate.
  - right. split; vm_compute; discriminate.
Defined.



(** *** Escape velocity *)

Lemma Q2R_0 : Q2R 0 = 0%R.
Proof. unfold Q2R. simpl. lra. Qed.

Lemma Q2R_nonzero (q : Q) : ~ q == 0 -> Q2R q <> 0%R.
Proof.
  intros H E. apply H. apply eqR_Qeq. rewrite E. symmetry. exact Q2R_0.
Qed.

Lemma Q2R_pos (q : Q) : 0 < q -> (0 < Q2R q)%R.
Proof. intros H. rewrite <- Q2R_0. apply Qlt_Rlt. exact H. Qed.


Lemma qdiv_zero (x y : Q) : y == 0 -> qdiv x y = Raise ZeroDivisionError.
Proof.
  intros H. unfold qdiv. rewrite Qeq_bool_true by exact H. reflexivity.
Qed.

(** X17.  [escape_velocity_at_distance(distance)] raises
    [ZeroDivisionError] exactly at distance 0, raises [ValueError] exactly
    when [2 * gravitational_parameter / distance] is negative, and
    otherwise returns the square root of that quotient, which is not
    negative. *)
Theorem escape_velocity_outcomes :
  forall (b : CelestialBody) (d : Q),
    let energy := 2 * gravitational_parameter b / d in
    (d == 0 <-> escape_velocity_at_distance b d = Raise ZeroDivisionError)
    /\ (~ d == 0 /\ energy < 0
        <-> escape_velocity_at_distance b d = Raise ValueError)
    /\ (~ d == 0 /\ 0 <= energy
        <-> exists v : R,
              escape_velocity_at_distance b d = Ok v
              /\ (0 <= v)%R /\ (v * v = Q2R energy)%R).
Proof.
  intros b d energy. unfold escape_velocity_at_distance.
  destruct (Qeq_dec d 0) as [Hd | Hd].
  - rewrite qdiv_zero by exact Hd. cbn [bind].
    split; [tauto|]. split; split.
    + intros [H _]. contradiction.
    + discriminate.
    + intros [H _]. contradiction.
    + intros (v & H & _). discriminate.
  - rewrite qdiv_ok by exact Hd. cbn [bind]. fold energy.
    unfold math_sqrt.
    destruct (Rlt_dec (Q2R energy) 0) as [Hneg | Hpos].
    + assert (Hq : energy < 0) by (apply Rlt_Qlt; rewrite Q2R_0; exact Hneg).
      split; [split; [contradiction | discriminate]|].
      split; split.
      * reflexivity.
      * intros _. split; assumption.
      * intros [_ H]. exfalso. apply (Qlt_not_le _ _ Hq H).
      * intros (v & H & _). discriminate.
    + assert (Hq : 0 <= energy).
      { apply Rle_Qle. rewrite Q2R_0. lra. }
      split; [split; [contradiction | discriminate]|].
      split; split.
      * intros [_ H]. exfalso. apply (Qlt_not_le _ _ H Hq).
      * discriminate.
      * intros _. exists (sqrt (Q2R energy)).
        split; [reflexivity|]. split; [apply sqrt_pos|].
        apply sqrt_sqrt. lra.
      * intros _. split; assumption.
Qed.



(** *** Angular diameter *)

Local Open Scope R_scope.

Lemma asin_increasing (x y : R) :
  -1 <= x -> x < y -> y <= 1 -> asin x < asin y.
Proof.
  intros Hx Hxy Hy.
  pose proof (asin_bound x) as Bx. pose proof (asin_bound y) as By.
  apply sin_increasing_0; try lra.
  rewrite !sin_asin by lra. exact Hxy.
Qed.

Lemma math_asin_ok (x : R) : -1 <= x <= 1 -> math_asin x = Ok (asin x).
Proof.
  intros [H1 H2]. unfold math_asin.
  destruct (Rlt_dec x (-1)) as [H | _]; [lra|].
  destruct (Rlt_dec 1 x) as [H | _]; [lra|]. reflexivity.
Qed.

Lemma math_asin_raises (x : R) :
  x < -1 \/ 1 < x -> math_asin x = Raise ValueError.
Proof.
  intros H. unfold math_asin.
  destruct (Rlt_dec x (-1)) as [_ | H1]; [reflexivity|].
  destruct (Rlt_dec 1 x) as [_ | H2]; [reflexivity|]. lra.
Qed.

Lemma angular_diameter_ok (b : CelestialBody) (d : Q) :
  (0 < radius b)%Q -> (radius b <= d)%Q ->
  angular_diameter b d = Ok (2 * asin (Q2R (radius b) / Q2R d))
  /\ 0 < Q2R (radius b) / Q2R d <= 1.
Proof.
  intros Hr Hd.
  assert (Hd' : (0 < d)%Q) by (apply Qlt_le_trans with (radius b); assumption).
  assert (Hd0 : ~ (d == 0)%Q) by (intros E; rewrite E in Hd'; discriminate).
  pose proof (Q2R_pos Hr) as HrR. pose proof (Q2R_pos Hd') as HdR.
  pose proof (Qle_Rle _ _ Hd) as HrdR.
  assert (Hq : 0 < Q2R (radius b) / Q2R d <= 1).
  { split.
    - apply Rdiv_lt_0_compat; assumption.
    - apply Rmult_le_reg_r with (Q2R d); [exact HdR|].
      unfold Rdiv. rewrite Rmult_assoc, Rinv_l by lra. lra. }
  split; [|exact Hq].
  unfold angular_diameter. rewrite qdiv_ok by exact Hd0. cbn [bind].
  rewrite Q2R_div by exact Hd0.
  rewrite math_asin_ok by lra. reflexivity.
Qed.

(** X19.  For a positive radius, [angular_diameter(distance)] raises
    [ZeroDivisionError] exactly at distance 0, raises [ValueError] at a
    positive distance below the radius, and from the radius on returns an
    angle [a] in [(0, pi]] with [sin(a/2) = radius/distance], which is
    [pi] exactly at the surface. *)
Theorem angular_diameter_cases :
  forall (b : CelestialBody) (d : Q),
    (0 < radius b)%Q ->
    ((d == 0)%Q <-> angular_diameter b d = Raise ZeroDivisionError)
    /\ ((0 < d)%Q /\ (d < radius b)%Q ->
        angular_diameter b d = Raise ValueError)
    /\ ((radius b <= d)%Q ->
        exists a : R,
          angular_diameter b d = Ok a
          /\ 0 < a <= PI
          /\ sin (a / 2) = Q2R (radius b) / Q2R d
          /\ (a = PI <-> (d == radius b)%Q)).
Proof.
  intros b d Hr.
  pose proof (Q2R_pos Hr) as HrR.
  split; [|split].
  - unfold angular_diameter, qdiv.
    destruct (Qeq_bool d 0) eqn:E; cbn [bind].
    + apply Qeq_bool_iff in E. tauto.
    + assert (Hd0 : ~ (d == 0)%Q).
      { intros H. apply Qeq_bool_iff in H. congruence. }
      split; [contradiction|].
      unfold math_asin.
      destruct (Rlt_dec (Q2R (radius b / d)) (-1)); [discriminate|].
      destruct (Rlt_dec 1 (Q2R (radius b / d))); discriminate.
  - intros [Hd Hlt].
    assert (Hd0 : ~ (d == 0)%Q) by (intros E; rewrite E in Hd; discriminate).
    pose proof (Q2R_pos Hd) as HdR. pose proof (Qlt_Rlt _ _ Hlt) as HltR.
    unfold angular_diameter. rewrite qdiv_ok by exact Hd0. cbn [bind].
    rewrite Q2R_div by exact Hd0.
    rewrite math_asin_raises; [reflexivity|]. right.
    apply Rmult_lt_reg_r with (Q2R d); [exact HdR|].
    unfold Rdiv. rewrite Rmult_assoc, Rinv_l by lra. lra.
  - intros Hd.
    destruct (angular_diameter_ok b Hr Hd) as [Ha [Hq0 Hq1]].
    assert (Hd' : (0 < d)%Q)
      by (apply Qlt_le_trans with (radius b); assumption).
    pose proof (Q2R_pos Hd') as HdR.
    set (q := Q2R (radius b) / Q2R d) in *.
    exists (2 * asin q). split; [exact Ha|].
    pose proof (asin_bound q) as Hb.
    assert (H0 : 0 < asin q).
    { rewrite <- asin_0. apply asin_increasing; lra. }
    split; [lra|]. split.
    + replace (2 * asin q / 2) with (asin q) by lra. apply sin_asin. lra.
    + split.
      * intros E. assert (E1 : asin q = PI / 2) by lra.
        assert (Hq : q = 1).
        { rewrite <- (sin_asin q) by lra. rewrite E1. apply sin_PI2. }
        apply eqR_Qeq. unfold q in Hq.
        apply (f_equal (fun x => x * Q2R d)) in Hq.
        unfold Rdiv in Hq. rewrite Rmult_assoc, Rinv_l in Hq by lra. lra.
      * intros E. apply Qeq_eqR in E.
        assert (Hq : q = 1) by (unfold q; rewrite E; field; lra).
        rewrite Hq, asin_1. lra.
Qed.

Lemma angular_diameter_cases_witness :
  let b := mkBody "Kerbin" 8 2 21600 None in
  ((4 == 0)%Q <-> angular_diameter b 4 = Raise ZeroDivisionError)
  /\ ((0 < 4)%Q /\ (4 < radius b)%Q ->
      angular_diameter b 4 = Raise ValueError)
  /\ ((radius b <= 4)%Q ->
      exists a : R,
        angular_diameter b 4 = Ok a
        /\ 0 < a <= PI
        /\ sin (a / 2) = Q2R (radius b) / Q2R 4
        /\ (a = PI <-> (4 == radius b)%Q)).
Proof.
  intros b. apply (@angular_diameter_cases b 4). reflexivity.
Defined.

(** X20.  For a positive radius, of two distances outside the body the
    larger has the strictly smaller angular diameter. *)
Theorem angular_diameter_shrinks_with_distance :
  forall (b : CelestialBody) (d1 d2 : Q),
    (0 < radius b)%Q -> (radius b <= d1)%Q -> (d1 < d2)%Q ->
    exists a1 a2 : R,
      angular_diameter b d1 = Ok a1
      /\ angular_diameter b d2 = Ok a2
      /\ 0 < a2 < a1.
Proof.
  intros b d1 d2 Hr H1 H12.
  assert (H2 : (radius b <= d2)%Q).
  { apply Qle_trans with d1; [exact H1 | apply Qlt_le_weak; exact H12]. }
  destruct (angular_diameter_ok b Hr H1) as [Ha1 [Hq1 Hq1']].
  destruct (angular_diameter_ok b Hr H2) as [Ha2 [Hq2 Hq2']].
  pose proof (Q2R_pos Hr) as HrR.
  assert (Hd1 : (0 < d1)%Q)
    by (apply Qlt_le_trans with (radius b); assumption).
  pose proof (Q2R_pos Hd1) as Hd1R. pose proof (Qlt_Rlt _ _ H12) as H12R.
  exists (2 * asin (Q2R (radius b) / Q2R d1)),
         (2 * asin (Q2R (radius b) / Q2R d2)).
  split; [exact Ha1|]. split; [exact Ha2|].
  assert (Hlt : Q2R (radius b) / Q2R d2 < Q2R (radius b) / Q2R d1).
  { unfold Rdiv. apply Rmult_lt_compat_l; [exact HrR|].
    apply Rinv_lt_contravar; [|exact H12R].
    apply Rmult_lt_0_compat; lra. }
  assert (E0 : 0 < asin (Q2R (radius b) / Q2R d2)).
  { rewrite <- asin_0. apply asin_increasing; lra. }
  assert (E1 : asin (Q2R (radius b) / Q2R d2) < asin (Q2R (radius b) / Q2R d1)).
  { apply asin_increasing; lra. }
  lra.
Qed.

Lemma angular_diameter_shrinks_with_distance_witness :
  let b := mkBody "Kerbin" 8 2 21600 None in
  exists a1 a2 : R,
    angular_diameter b 3 = Ok a1
    /\ angular_diameter b 5 = Ok a2
    /\ 0 < a2 < a1.
Proof.
  intros b. apply (@angular_diameter_shrinks_with_distance b 3 5).
  - reflexivity.
  - discriminate.
  - reflexivity.
Defined.

(** *** Constellations *)





(** *** Durations *)

Local Open Scope Q_scope.

Lemma divmod_zero (a b : Q) : b == 0 -> divmod a b = Raise ZeroDivisionError.
Proof.
  intros H. unfold divmod. rewrite Qeq_bool_true by exact H. reflexivity.
Qed.

Lemma divmod_ok (a b : Q) :
  ~ b == 0 ->
  divmod a b = Ok (Qfloor (a / b), a - inject_Z (Qfloor (a / b)) * b).
Proof.
  intros H. unfold divmod. rewrite Qeq_bool_false by exact H. reflexivity.
Qed.

(** X22.  [time2str] returns exactly when the body has an orbit and
    neither the orbital nor the rotational period is 0; it raises
    [ZeroDivisionError] exactly when the body has an orbit and one of the
    two periods is 0, and [AttributeError] exactly when it has no orbit. *)
Theorem time2str_outcomes :
  forall (b : CelestialBody) (seconds : Q),
    (returns (time2str b seconds)
     <-> exists o, orbit b = Some o
                   /\ ~ period o == 0 /\ ~ rotational_period b == 0)
    /\ (time2str b seconds = Raise ZeroDivisionError
        <-> exists o, orbit b = Some o
                      /\ (period o == 0 \/ rotational_period b == 0))
    /\ (time2str b seconds = Raise AttributeError <-> orbit b = None).
Proof.
  intros b seconds. unfold time2str, orbit_period.
  destruct (orbit b) as [o|]; cbn [bind].
  - destruct (Qeq_dec (period o) 0) as [HP | HP].
    + rewrite divmod_zero by exact HP. cbn [bind].
      split; [|split]; split.
      * intros [v Hv]. discriminate.
      * intros (o' & E & H1 & _). injection E as <-. contradiction.
      * intros _. exists o. split; [reflexivity | left; exact HP].
      * reflexivity.
      * discriminate.
      * discriminate.
    + rewrite divmod_ok by exact HP. cbn [bind].
      destruct (Qeq_dec (rotational_period b) 0) as [HD | HD].
      * rewrite divmod_zero by exact HD. cbn [bind].
        split; [|split]; split.
        -- intros [v Hv]. discriminate.
        -- intros (o' & E & _ & H2). contradiction.
        -- intros _. exists o. split; [reflexivity | right; exact HD].
        -- reflexivity.
        -- discriminate.
        -- discriminate.
      * rewrite divmod_ok by exact HD. cbn [bind].
        rewrite !divmod_ok by discriminate. cbn [bind].
        split; [|split]; split.
        -- intros _. exists o. repeat split; assumption.
        -- intros _. eexists. reflexivity.
        -- discriminate.
        -- intros (o' & E & [H | H]); [|contradiction].
           injection E as <-. contradiction.
        -- discriminate.
        -- discriminate.
  - split; [|split]; split.
    + intros [v Hv]. discriminate.
    + intros (o & E & _). discriminate.
    + discriminate.
    + intros (o & E & _). discriminate.
    + reflexivity.
    + reflexivity.
Qed.

Lemma regex_match_signed (c : ascii) (s : string) :
  c = "+"%char \/ c = "-"%char ->
  regex_match (String c s)
  = let g := regex_match (String "+" s) in
    mkGroups (String c "") (g_years g) (g_days g)
             (g_hours g) (g_minutes g) (g_seconds g).
Proof. intros [-> | ->]; reflexivity. Qed.

Lemma regex_match_unsigned (s : string) :
  fst (sign_field s) = ""%string ->
  regex_match s
  = let g := regex_match (String "+" s) in
    mkGroups "" (g_years g) (g_days g)
             (g_hours g) (g_minutes g) (g_seconds g).
Proof.
  intros H. unfold regex_match.
  assert (E : sign_field s = (""%string, s)).
  { destruct s as [|c r]; [reflexivity|].
    unfold sign_field in *.
    destruct (Ascii.eqb c "-" || Ascii.eqb c "+")%bool;
      [discriminate | reflexivity]. }
  rewrite E. reflexivity.
Qed.

Local Open Scope py_scope.

Lemma str2time_minus (b : CelestialBody) (s : string) :
  str2time b (String "-" s)
  = (r <- str2time b (String "+" s) ;; Ok (- r)).
Proof.
  unfold str2time.
  rewrite (@regex_match_signed "-" s) by (right; reflexivity).
  set (g := regex_match (String "+" s)).
  assert (Eg : g_sign g = "+"%string) by reflexivity.
  cbn [g_sign g_years g_days g_hours g_minutes g_seconds]. rewrite Eg.
  destruct (group_value (g_years g)); cbn [bind]; [|reflexivity].
  destruct (group_value (g_days g)); cbn [bind]; [|reflexivity].
  destruct (group_value (g_hours g)); cbn [bind]; [|reflexivity].
  destruct (group_value (g_minutes g)); cbn [bind]; [|reflexivity].
  destruct (group_value (g_seconds g)); cbn [bind]; [|reflexivity].
  destruct (orbit_period b); cbn [bind]; reflexivity.
Qed.

Lemma str2time_returns (b : CelestialBody) (o : Orbit) (s : string) :
  orbit b = Some o -> returns (str2time b s).
Proof.
  intros Ho.
  destruct (str2time_fields b s)
    as (y & d & h & m & sec & _ & _ & _ & _ & _
        & Hy & Hd & Hh & Hm & Hs & _).
  unfold str2time, orbit_period.
  rewrite Hy, Hd, Hh, Hm, Hs, Ho. cbn [bind]. eexists. reflexivity.
Qed.

(** X23.  For every string, [str2time] of the string after a minus sign
    is the opposite of [str2time] of the string after a plus sign, errors
    included; and a string that does not start with a sign reads as with
    a plus sign in front. *)
Theorem str2time_sign :
  forall (b : CelestialBody) (s : string),
    str2time b (String "-" s)
    = (r <- str2time b (String "+" s) ;; Ok (- r))
    /\ (fst (sign_field s) = ""%string ->
        str2time b s = str2time b (String "+" s)).
Proof.
  intros b s. split; [apply str2time_minus|].
  intros H. unfold str2time.
  rewrite (regex_match_unsigned s H).
  set (g := regex_match (String "+" s)).
  assert (Eg : g_sign g = "+"%string) by reflexivity.
  cbn [g_sign g_years g_days g_hours g_minutes g_seconds]. rewrite Eg.
  reflexivity.
Qed.

Lemma Qabs_opp_eq (t : Q) : Qabs (- t) = Qabs t.
Proof.
  destruct t as [n d]. unfold Qabs, Qopp. rewrite Z.abs_opp. reflexivity.
Qed.

(** X24.  On a body with an orbit and periods other than 0, a positive
    duration and its opposite print as the same text after the sign, [+]
    for the first and [-] for the second, and [str2time] reads the two
    texts as opposite numbers. *)
Theorem negative_duration_mirrors_positive :
  forall (b : CelestialBody) (o : Orbit) (t : Q),
    orbit b = Some o -> ~ period o == 0 -> ~ rotational_period b == 0 ->
    0 < t ->
    exists (text : string) (r : Q),
      time2str b t = Ok (String "+" text)
      /\ time2str b (- t) = Ok (String "-" text)
      /\ str2time b (String "+" text) = Ok r
      /\ str2time b (String "-" text) = Ok (- r).
Proof.
  intros b o t Ho HP HD Ht.
  assert (Hneg : - t < 0).
  { apply Qlt_minus_iff. rewrite Qopp_involutive, Qplus_0_l. exact Ht. }
  unfold time2str, orbit_period. rewrite Ho. cbn [bind].
  rewrite Qabs_opp_eq.
  rewrite (@qltb_true (- t) 0) by exact Hneg.
  rewrite (@qltb_false t 0) by (apply Qlt_le_weak; exact Ht).
  rewrite !(@divmod_ok _ (period o)) by exact HP. cbn [bind fst snd].
  rewrite !(@divmod_ok _ (rotational_period b)) by exact HD.
  cbn [bind fst snd].
  rewrite !(@divmod_ok _ 3600) by discriminate. cbn [bind fst snd].
  rewrite !(@divmod_ok _ 60) by discriminate. cbn [bind fst snd].
  match goal with
  | |- exists text r, Ok (append "+" ?x) = _ /\ _ =>
      exists x;
      destruct (@str2time_returns b o (String "+" x) Ho) as [r Hr];
      exists r
  end.
  split; [reflexivity|]. split; [reflexivity|]. split; [exact Hr|].
  rewrite str2time_minus, Hr. reflexivity.
Qed.

Lemma negative_duration_mirrors_positive_witness :
  let b := mkBody "Kerbin" 8 2 21600 (Some (mkOrbit 9203545)) in
  exists (text : string) (r : Q),
    time2str b 90 = Ok (String "+" text)
    /\ time2str b (- (90)) = Ok (String "-" text)
    /\ str2time b (String "+" text) = Ok r
    /\ str2time b (String "-" text) = Ok (- r).
Proof.
  intros b.
  apply (@negative_duration_mirrors_positive b (mkOrbit 9203545) 90).
  - reflexivity.
  - discriminate.
  - discriminate.
  - reflexivity.
Defined.

End BodyQueriesProperties.
